(** * kkonfig: layered configuration (defaults, JSON files, environment)

    A shallow embedding of the Go package [kkonfig] (a fork of envconfig
    with a JSON step in the middle) and the properties of its structure
    walker and string coercion engine.

    The package works through [reflect]; the embedding keeps the
    reflection data explicit: a [type] is the tree [reflect.Type] describes,
    a [contents] is the tree of data stored in a variable of that type, and a
    field handle is a type, a value and the two flag bits the code asks
    about.  Mutation in place becomes state passing: every function returns
    the new contents of what it was given together with its [error].

    Conventions of the embedding:
    - a pointer owns its pointee ([VPtr (Some v)]); two pointer fields are
      never aliases of one another, and types are finite trees;
    - strings are byte strings; [strings.ToUpper] acts on ASCII letters;
    - user-defined methods ([Decode], [Set], [UnmarshalText]) are functions
      from the receiver's contents to its new contents and an error;
    - [int] and [uint] are 64 bits wide. *)

From Stdlib Require Import ZArith String Ascii List Bool Lia.
From stdpp Require Import base list.

Import ListNotations.
#[local] Set Warnings "-register-all".
Local Open Scope string_scope.
Local Open Scope Z_scope.

(** ** Errors *)

(** [strconv.ErrSyntax] and [strconv.ErrRange]. *)
Inductive strconvErr := ErrSyntax | ErrRange.

(** The errors that flow through the package: its own
    [ErrInvalidSpecification] and [*ParseError], [*strconv.NumError], and
    whatever a user method, [time.ParseDuration] or the JSON decoder
    returns. *)
Inductive error :=
| ErrInvalidSpecification
| NumError (Func Num : string) (Err : strconvErr)
| ParseError (KeyName FieldName TypeName Value : string) (Err : error)
| OtherError (msg : string).

(** ** The standard library functions the package calls *)

Module strings.

Definition upperByte (c : ascii) : ascii :=
  let n := nat_of_ascii c in
  if ((97 <=? n) && (n <=? 122))%nat then ascii_of_nat (n - 32) else c.

(** [strings.ToUpper], on ASCII. *)
Fixpoint ToUpper (s : string) : string :=
  match s with
  | EmptyString => EmptyString
  | String c rest => String (upperByte c) (ToUpper rest)
  end.

(** [strings.Split(s, sep)] for a one-byte separator: the pieces between
    the separators, always at least one piece. *)
Fixpoint Split (s : string) (sep : ascii) : list string :=
  match s with
  | EmptyString => [EmptyString]
  | String c rest =>
      if Ascii.eqb c sep then EmptyString :: Split rest sep
      else match Split rest sep with
           | piece :: pieces => String c piece :: pieces
           | [] => [String c EmptyString]
           end
  end.

(** [strings.Join(elems, sep)]. *)
Fixpoint Join (elems : list string) (sep : string) : string :=
  match elems with
  | [] => EmptyString
  | [e] => e
  | e :: rest => e ++ sep ++ Join rest sep
  end.

End strings.

Module strconv.

Definition byteVal (c : ascii) : Z := Z.of_nat (nat_of_ascii c).

(** [lower(c) = c | ('x' - 'X')]. *)
Definition lower (c : ascii) : Z := Z.lor (byteVal c) 32.

Definition syntaxError (fn str : string) : error := NumError fn str ErrSyntax.
Definition rangeError (fn str : string) : error := NumError fn str ErrRange.

Definition maxUint64 : Z := 2 ^ 64 - 1.

Definition isDigit (c : ascii) : bool :=
  (48 <=? byteVal c) && (byteVal c <=? 57).

(** [underscoreOK]: underscores only between digits, or between the base
    prefix and a digit.  [saw] is the last byte class seen: [0] for the
    beginning, [1] for a digit, [2] for an underscore, [3] otherwise. *)
Fixpoint underscoreScan (hex : bool) (saw : nat) (s : string) : bool :=
  match s with
  | EmptyString => negb (Nat.eqb saw 2)
  | String c rest =>
      if isDigit c || (hex && (97 <=? lower c) && (lower c <=? 102))
      then underscoreScan hex 1 rest
      else if Ascii.eqb c "_"
      then if Nat.eqb saw 1 then underscoreScan hex 2 rest else false
      else if Nat.eqb saw 2 then false
      else underscoreScan hex 3 rest
  end.

Definition underscoreOK (s : string) : bool :=
  let s := match s with
           | String c rest =>
               if Ascii.eqb c "-" || Ascii.eqb c "+" then rest else s
           | _ => s
           end in
  match s with
  | String c0 (String c1 rest) =>
      if Ascii.eqb c0 "0" &&
         ((lower c1 =? 98) || (lower c1 =? 111) || (lower c1 =? 120))
      then underscoreScan (lower c1 =? 120) 1 rest
      else underscoreScan false 0 s
  | _ => underscoreScan false 0 s
  end.

(** The digit loop of [ParseUint]: [inl (n, underscores)] when every byte
    was consumed, [inr] with the value and error returned from inside the
    loop. *)
Fixpoint digits (fn s0 : string) (base : Z) (base0 : bool) (maxVal : Z)
         (s : string) (n : Z) (underscores : bool)
  : (Z * bool) + (Z * error) :=
  match s with
  | EmptyString => inl (n, underscores)
  | String c rest =>
      if Ascii.eqb c "_" && base0
      then digits fn s0 base base0 maxVal rest n true
      else
        let d := if isDigit c then Some (byteVal c - 48)
                 else if (97 <=? lower c) && (lower c <=? 122)
                      then Some (lower c - 97 + 10)
                      else None in
        match d with
        | None => inr (0, syntaxError fn s0)
        | Some d =>
            if base <=? d then inr (0, syntaxError fn s0)
            else if maxUint64 / base + 1 <=? n
            then inr (maxVal, rangeError fn s0)
            else
              let n' := n * base in
              let n1 := (n' + d) mod 2 ^ 64 in
              if (n1 <? n') || (maxVal <? n1)
              then inr (maxVal, rangeError fn s0)
              else digits fn s0 base base0 maxVal rest n1 underscores
        end
  end.

(** [strconv.ParseUint(s, 0, bitSize)] for [0 < bitSize <= 64]; [fn] is
    the function name reported in the error. *)
Definition parseUint (fn s0 s : string) (bitSize : Z) : Z * option error :=
  match s with
  | EmptyString => (0, Some (syntaxError fn s0))
  | String c0 rest0 =>
      let '(base, body) :=
        if Ascii.eqb c0 "0" then
          match rest0 with
          | String c1 (String c2 rest2) =>
              if lower c1 =? 98 then (2, String c2 rest2)
              else if lower c1 =? 111 then (8, String c2 rest2)
              else if lower c1 =? 120 then (16, String c2 rest2)
              else (8, rest0)
          | _ => (8, rest0)
          end
        else (10, s) in
      let maxVal := 2 ^ bitSize - 1 in
      match digits fn s0 base true maxVal body 0 false with
      | inr (v, e) => (v, Some e)
      | inl (n, underscores) =>
          if underscores && negb (underscoreOK s0)
          then (0, Some (syntaxError fn s0))
          else (n, None)
      end
  end.

Definition ParseUint (s : string) (bitSize : Z) : Z * option error :=
  parseUint "ParseUint" s s bitSize.

(** [strconv.ParseInt(s, 0, bitSize)]. *)
Definition ParseInt (s0 : string) (bitSize : Z) : Z * option error :=
  match s0 with
  | EmptyString => (0, Some (syntaxError "ParseInt" s0))
  | String c rest =>
      let '(neg, s) :=
        if Ascii.eqb c "+" then (false, rest)
        else if Ascii.eqb c "-" then (true, rest)
        else (false, s0) in
      let '(un, err) := parseUint "ParseInt" s0 s bitSize in
      match err with
      | Some (NumError _ _ ErrSyntax) => (0, err)
      | _ =>
          let cutoff := 2 ^ (bitSize - 1) in
          if negb neg && (cutoff <=? un)
          then (cutoff - 1, Some (rangeError "ParseInt" s0))
          else if neg && (cutoff <? un)
          then (- cutoff, Some (rangeError "ParseInt" s0))
          else ((if neg then - un else un), None)
      end
  end.

(** [strconv.ParseBool]. *)
Definition ParseBool (str : string) : bool * option error :=
  if existsb (String.eqb str) ["1"; "t"; "T"; "TRUE"; "true"; "True"]
  then (true, None)
  else if existsb (String.eqb str) ["0"; "f"; "F"; "FALSE"; "false"; "False"]
  then (false, None)
  else (false, Some (syntaxError "ParseBool" str)).

End strconv.

(** ** Values and types as [reflect] sees them *)

(** The contents of a variable.  A nil slice and an empty slice are both
    [VSlice []]; [VOther] stands for the kinds the package never converts
    (maps, channels, functions, arrays, complex numbers, ...). *)
Inductive contents :=
| VBool (b : bool)
| VInt (n : Z)
| VUint (n : Z)
| VFloat (bits : Z)
| VString (s : string)
| VSlice (elems : list contents)
| VPtr (pointee : option contents)
| VStruct (fields : list contents)
| VOther (payload : nat).

(** A method with a string (or byte slice) argument and an [error] result,
    as a function of the receiver's contents. *)
Definition method (A : Type) : Type := A -> contents -> contents * option error.

(** The three interfaces the package asks for, each satisfied or not:
    [Decoder], [Setter] and [encoding.TextUnmarshaler]. *)
Record methodSet := {
  Decode : option (method string);
  Set_ : option (method string);
  UnmarshalText : option (method (list Byte.byte))
}.

Definition noMethods : methodSet :=
  {| Decode := None; Set_ := None; UnmarshalText := None |}.

(** What every [reflect.Type] carries: its names, and the method sets a
    type assertion sees on a value of the type ([onValue]) and on a pointer
    to such a value ([onAddr]). *)
Record typeInfo := {
  PkgPath : string;
  TypeName : string;
  TypeString : string;
  onValue : methodSet;
  onAddr : methodSet
}.

Inductive intKind := Int | Int8 | Int16 | Int32 | Int64.
Inductive uintKind := Uint | Uint8 | Uint16 | Uint32 | Uint64.
Inductive floatKind := Float32 | Float64.

(** A struct tag, parsed: the key/value pairs in the order written. *)
Definition StructTag := list (string * string).

(** [reflect.StructField]. *)
Record StructField := {
  Name : string;
  Exported : bool;
  Anonymous : bool;
  Tag : StructTag
}.

Inductive type :=
| TBool (info : typeInfo)
| TInt (info : typeInfo) (k : intKind)
| TUint (info : typeInfo) (k : uintKind)
| TFloat (info : typeInfo) (k : floatKind)
| TString (info : typeInfo)
| TSlice (info : typeInfo) (elem : type)
| TPtr (info : typeInfo) (elem : type)
| TStruct (info : typeInfo) (fields : list (StructField * type))
| TOther (info : typeInfo).

Definition info (t : type) : typeInfo :=
  match t with
  | TBool i | TInt i _ | TUint i _ | TFloat i _ | TString i
  | TSlice i _ | TPtr i _ | TStruct i _ | TOther i => i
  end.

(** [t.Kind() == reflect.Struct] and [t.Kind() == reflect.Ptr]. *)
Definition isStruct (t : type) : bool :=
  match t with TStruct _ _ => true | _ => false end.

Definition isPtr (t : type) : bool :=
  match t with TPtr _ _ => true | _ => false end.

(** Induction on the types the way the walk descends them: through
    pointers to the pointee, through structs to the types of the
    fields. *)
Section TypeInduction.

Variable P : type -> Prop.

Hypothesis leaf : forall t, isPtr t = false -> isStruct t = false -> P t.
Hypothesis pointer : forall i elem, P elem -> P (TPtr i elem).
Hypothesis struct :
  forall i fields, Forall (fun ft => P ft.2) fields -> P (TStruct i fields).

Fixpoint type_walk_ind (t : type) : P t :=
  match t with
  | TPtr i elem => pointer i elem (type_walk_ind elem)
  | TStruct i fields =>
      struct i fields
        ((fix each (l : list (StructField * type)) : Forall (fun ft => P ft.2) l :=
            match l with
            | [] => @List.Forall_nil _ _
            | ft :: l' =>
                @List.Forall_cons _ _ ft l'
                  match ft as ft0 return P ft0.2 with
                   | (_, t') => type_walk_ind t'
                   end
                  (each l')
            end) fields)
  | TBool i => leaf (TBool i) eq_refl eq_refl
  | TInt i k => leaf (TInt i k) eq_refl eq_refl
  | TUint i k => leaf (TUint i k) eq_refl eq_refl
  | TFloat i k => leaf (TFloat i k) eq_refl eq_refl
  | TString i => leaf (TString i) eq_refl eq_refl
  | TSlice i elem => leaf (TSlice i elem) eq_refl eq_refl
  | TOther i => leaf (TOther i) eq_refl eq_refl
  end.

End TypeInduction.

Definition intBits (k : intKind) : Z :=
  match k with Int => 64 | Int8 => 8 | Int16 => 16 | Int32 => 32 | Int64 => 64 end.

Definition uintBits (k : uintKind) : Z :=
  match k with Uint => 64 | Uint8 => 8 | Uint16 => 16 | Uint32 => 32 | Uint64 => 64 end.

Definition floatBits (k : floatKind) : Z :=
  match k with Float32 => 32 | Float64 => 64 end.

(** The zero value of a type, what [reflect.New] and [reflect.MakeSlice]
    fill their allocation with. *)
Fixpoint zero (t : type) : contents :=
  match t with
  | TBool _ => VBool false
  | TInt _ _ => VInt 0
  | TUint _ _ => VUint 0
  | TFloat _ _ => VFloat 0
  | TString _ => VString ""
  | TSlice _ _ => VSlice []
  | TPtr _ _ => VPtr None
  | TStruct _ fields => VStruct (map (fun ft => let '(_, t') := ft in zero t') fields)
  | TOther _ => VOther 0
  end.

(** [StructTag.Lookup] and [StructTag.Get]. *)
Fixpoint Tag_Lookup (tag : StructTag) (key : string) : option string :=
  match tag with
  | [] => None
  | (k, v) :: rest => if String.eqb k key then Some v else Tag_Lookup rest key
  end.

Definition Tag_Get (tag : StructTag) (key : string) : string :=
  match Tag_Lookup tag key with Some v => v | None => "" end.

(** The flag bits of a [reflect.Value] handle. *)
Record flag := { flagRO : bool; flagAddr : bool }.

Definition CanInterface (fl : flag) : bool := negb (flagRO fl).
Definition CanAddr (fl : flag) : bool := flagAddr fl.
Definition CanSet (fl : flag) : bool := flagAddr fl && negb (flagRO fl).

(** The handle [s.Field(i)] where [s] is the [Elem()] of a pointer obtained
    from an interface value: addressable, read-only when the field is not
    exported. *)
Definition Field (ftype : StructField) : flag :=
  {| flagRO := negb (Exported ftype); flagAddr := true |}.

(** The handle [sl.Index(i)] of a slice made by [reflect.MakeSlice]. *)
Definition Index : flag := {| flagRO := false; flagAddr := true |}.

(** The value of type [interface{}] a caller passes as [spec]. *)
Inductive iface :=
| INil
| IVal (t : type) (v : contents).

(** ** Sample declarations

    The types, fields and collaborators the instances below are built from. *)

(** The information of a type without methods, named by its
    [String()]. *)
Definition plainInfo (str : string) : typeInfo :=
  {| PkgPath := ""; TypeName := str; TypeString := str;
     onValue := noMethods; onAddr := noMethods |}.

Definition tInt : type := TInt (plainInfo "int") Int.
Definition tString : type := TString (plainInfo "string").
Definition tSliceOfString : type := TSlice (plainInfo "[]string") tString.
Definition tSliceOfInt : type := TSlice (plainInfo "[]int") tInt.

(** An exported, named field with the given tag. *)
Definition exportedField (name : string) (tag : StructTag) : StructField :=
  {| Name := name; Exported := true; Anonymous := false; Tag := tag |}.

(** An embedded field. *)
Definition embeddedField (name : string) (tag : StructTag) : StructField :=
  {| Name := name; Exported := true; Anonymous := true; Tag := tag |}.

(** An unnamed struct type and a pointer to it. *)
Definition tStructOf (fields : list (StructField * type)) : type :=
  TStruct (plainInfo "struct") fields.

Definition tPtrTo (t : type) : type := TPtr (plainInfo "ptr") t.

(** A process environment given by its variables. *)
Fixpoint environ (vars : list (string * string)) (key : string) : option string :=
  match vars with
  | [] => None
  | (k, v) :: rest => if String.eqb k key then Some v else environ rest key
  end.

(** A file system without files, one where every path holds the same
    bytes, a JSON decoder that finds nothing to merge, and one that stores
    [v] in field [i] of the struct whatever the document. *)
Definition noFile (path : string) : list Byte.byte * option error :=
  ([], Some (OtherError "no such file or directory")).

Definition sameFile (bytes : list Byte.byte) (path : string)
  : list Byte.byte * option error := (bytes, None).

Definition mergeNothing (jsonBytes : list Byte.byte) (t : type) (s : contents)
  : contents * option error := (s, None).

Definition mergeField (i : nat) (v : contents)
           (jsonBytes : list Byte.byte) (t : type) (s : contents)
  : contents * option error :=
  match s with
  | VStruct fs => (VStruct (<[i:=v]> fs), None)
  | _ => (s, None)
  end.

(** Parsers of floats and durations that accept nothing. *)
Definition rejectFloat (s : string) (bitSize : Z) : Z * option error :=
  (0, Some (NumError "ParseFloat" s ErrSyntax)).

Definition rejectDuration (s : string) : Z * option error :=
  (0, Some (OtherError "time: invalid duration")).

(** The fields of a struct with [Port int `default:"5"`], and the field
    [Port] without a tag. *)
Definition portFields : list (StructField * type) :=
  [(exportedField "Port" [("default", "5")], tInt)].

Definition port : StructField := exportedField "Port" [].

(** A method that stores [v] whatever its argument. *)
Definition store {A : Type} (v : contents) : method A := fun _ _ => (v, None).

(** [Port] nested in the struct field [Server], and in an embedded
    [Server]. *)
Definition serverPortFields : list (StructField * type) :=
  [(exportedField "Server" [], tStructOf [(port, tInt)])].

Definition embeddedServerFields : list (StructField * type) :=
  [(embeddedField "Server" [], tStructOf [(port, tInt)])].

(** A struct with the field [DB], a pointer to a struct with an ignored
    [Password] and a [Host]. *)
Definition password : StructField :=
  exportedField "Password" [("ignored", "true"); ("default", "hunter2")].

Definition dbFields : list (StructField * type) :=
  [(exportedField "DB" [],
    tPtrTo (tStructOf [(password, tString);
                       (exportedField "Host" [("default", "localhost")], tString)]));
   (exportedField "Port" [("default", "5")], tInt)].

(** An integer type with [Set] on the value receiver and [Decode] and
    [UnmarshalText] on the pointer receiver. *)
Definition tLevel : type :=
  TInt {| PkgPath := "main"; TypeName := "Level"; TypeString := "main.Level";
          onValue := {| Decode := None; Set_ := Some (store (VInt 2));
                        UnmarshalText := None |};
          onAddr := {| Decode := Some (store (VInt 1)); Set_ := Some (store (VInt 2));
                       UnmarshalText := Some (store (VInt 3)) |} |}
       Int.

(** A struct type with a [Decode] method, as the type of the field
    [Server]. *)
Definition tServer : type :=
  TStruct {| PkgPath := "main"; TypeName := "Server"; TypeString := "main.Server";
             onValue := noMethods;
             onAddr := {| Decode := Some (store (VStruct [VInt 80]));
                          Set_ := None; UnmarshalText := None |} |}
          portFields.

Definition serverFields : list (StructField * type) :=
  [(exportedField "Server" [("default", "443")], tServer)].

(** ** The package *)

Section Kkonfig.

(** The collaborators the package reaches outside itself for:
    [strconv.ParseFloat] (the result as IEEE 754 bits),
    [time.ParseDuration] (nanoseconds), [ioutil.ReadFile],
    [json.Unmarshal] into a struct of a given type, and the process
    environment behind [lookupEnv]. *)
Variable ParseFloat : string -> Z -> Z * option error.
Variable ParseDuration : string -> Z * option error.
Variable ReadFile : string -> list Byte.byte * option error.
Variable Unmarshal : list Byte.byte -> type -> contents -> contents * option error.
Variable lookupEnv : string -> option string.

(** *** Capability lookup (source lines 313-338) *)

(** [interfaceFrom]: the type assertion [fn] is tried on the field's
    value, then, if that fails and the field is addressable, on its
    address. *)
Definition interfaceFrom {A : Type} (fl : flag) (t : type)
           (fn : methodSet -> option A) : option A :=
  if negb (CanInterface fl) then None
  else match fn (onValue (info t)) with
       | Some m => Some m
       | None => if CanAddr fl then fn (onAddr (info t)) else None
       end.

Definition decoderFrom (fl : flag) (t : type) : option (method string) :=
  interfaceFrom fl t Decode.

Definition setterFrom (fl : flag) (t : type) : option (method string) :=
  interfaceFrom fl t Set_.

Definition textUnmarshaler (fl : flag) (t : type) : option (method (list Byte.byte)) :=
  interfaceFrom fl t UnmarshalText.

Definition isNil {A : Type} (o : option A) : bool :=
  match o with None => true | Some _ => false end.

(** Line 147: [decoderFrom(f) == nil && setterFrom(f) == nil &&
    textUnmarshaler(f) == nil]. *)
Definition noCapability (fl : flag) (t : type) : bool :=
  isNil (decoderFrom fl t) && isNil (setterFrom fl t)
  && isNil (textUnmarshaler fl t).

(** *** The string coercion engine (source lines 235-311) *)

(** The [time.Duration] test of the signed integer case. *)
Definition isDuration (i : typeInfo) (k : intKind) : bool :=
  match k with
  | Int64 => String.eqb (PkgPath i) "time" && String.eqb (TypeName i) "Duration"
  | _ => false
  end.

(** [processField value field]: the field handle is its flags [fl], its
    type [typ] and its contents [field]; the result is the new contents
    and the error.  A pointer field is allocated when nil and the
    conversion aims at its pointee; a failed conversion leaves the
    allocation in place. *)
Fixpoint processField (value : string) (fl : flag) (typ : type) (field : contents)
         {struct typ} : contents * option error :=
  match decoderFrom fl typ with
  | Some decoder => decoder value field
  | None =>
  match setterFrom fl typ with
  | Some setter => setter value field
  | None =>
  match textUnmarshaler fl typ with
  | Some t => t (list_byte_of_string value) field
  | None =>
    let typ' := match typ with TPtr _ elem => elem | _ => typ end in
    let field' :=
      match typ with
      | TPtr _ elem =>
          match field with VPtr (Some v) => v | _ => zero elem end
      | _ => field
      end in
    let store (r : contents * option error) :=
      match typ with
      | TPtr _ _ => (VPtr (Some (fst r)), snd r)
      | _ => r
      end in
    store
      match typ' with
      | TString _ => (VString value, None)
      | TInt i k =>
          let '(val, err) :=
            if isDuration i k then ParseDuration value
            else strconv.ParseInt value (intBits k) in
          match err with
          | Some e => (field', Some e)
          | None => (VInt val, None)
          end
      | TUint _ k =>
          let '(val, err) := strconv.ParseUint value (uintBits k) in
          match err with
          | Some e => (field', Some e)
          | None => (VUint val, None)
          end
      | TBool _ =>
          let '(val, err) := strconv.ParseBool value in
          match err with
          | Some e => (field', Some e)
          | None => (VBool val, None)
          end
      | TFloat _ k =>
          let '(val, err) := ParseFloat value (floatBits k) in
          match err with
          | Some e => (field', Some e)
          | None => (VFloat val, None)
          end
      | TSlice _ elem =>
          let vals := strings.Split value "," in
          let fill :=
            fix fill (vals : list string) : list contents + error :=
              match vals with
              | [] => inl []
              | val :: rest =>
                  match processField val Index elem (zero elem) with
                  | (_, Some err) => inr err
                  | (v, None) =>
                      match fill rest with
                      | inl sl => inl (v :: sl)
                      | inr err => inr err
                      end
                  end
              end in
          match fill vals with
          | inl sl => (VSlice sl, None)
          | inr err => (field', Some err)
          end
      | _ => (field', None)
      end
  end end end.

(** *** The structure walker (source lines 48-92 and 108-193) *)

(** Lines 54 and 114: [!f.CanSet() || ftype.Tag.Get("ignored") == "true"]. *)
Definition skipField (ftype : StructField) : bool :=
  negb (CanSet (Field ftype))
  || String.eqb (Tag_Get (Tag ftype) "ignored") "true".

(** The loop over the fields of a struct, shared by the two passes:
    unsettable and ignored fields are skipped, [body] is what the pass
    does with a field, an error ends the walk at once.  Besides the new
    contents the walk returns the keys it looked up, in order. *)
Section Walk.

Variable body : StructField -> type -> contents -> contents * list string * option error.

Fixpoint walkFields (fields : list (StructField * type)) (s : list contents)
  : list contents * list string * option error :=
  match fields, s with
  | (ftype, t) :: fields', f :: s' =>
      if skipField ftype
      then let '(r, keys, err) := walkFields fields' s' in (f :: r, keys, err)
      else match body ftype t f with
           | (f', keys, Some err) => (f' :: s', keys, Some err)
           | (f', keys, None) =>
               let '(r, keys', err) := walkFields fields' s' in
               (f' :: r, (keys ++ keys')%list, err)
           end
  | _, _ => (s, [], None)
  end.

End Walk.

(** The default pass at a field that is not a struct (lines 79-88). *)
Definition defaultLeaf (ftype : StructField) (t : type) (f : contents)
  : contents * list string * option error :=
  match Tag_Lookup (Tag ftype) "default" with
  | Some value =>
      match processField value (Field ftype) t f with
      | (f', Some err) =>
          (f', [], Some (ParseError "" (Name ftype) (TypeString (info t)) value err))
      | (f', None) => (f', [], None)
      end
  | None => (f, [], None)
  end.

(** The body of the loop of [processDefaultValues] after the skip test
    (lines 58-88): the pointer loop, the recursion into a struct, the
    default tag.  The recursion follows the type: each turn of the
    pointer loop moves to the pointee, and a struct is walked with the
    same function. *)
Fixpoint processDefaultField (ftype : StructField) (t : type) (f : contents)
         {struct t} : contents * list string * option error :=
  match t with
  | TPtr _ elem =>
      match f with
      | VPtr None =>
          if negb (isStruct elem) then defaultLeaf ftype t f
          else
            let '(v, keys, err) := processDefaultField ftype elem (zero elem) in
            (VPtr (Some v), keys, err)
      | VPtr (Some v) =>
          let '(v', keys, err) := processDefaultField ftype elem v in
          (VPtr (Some v'), keys, err)
      | _ => (f, [], None)
      end
  | TStruct _ fields =>
      match f with
      | VStruct s =>
          let '(s', keys, err) := walkFields processDefaultField fields s in
          (VStruct s', keys, err)
      | _ => (f, [], None)
      end
  | _ => defaultLeaf ftype t f
  end.

(** [processDefaultValues(spec)] on the struct [spec] points to. *)
Definition processDefaultValues (fields : list (StructField * type)) (s : contents)
  : contents * option error :=
  match s with
  | VStruct fs =>
      let '(fs', _, err) := walkFields processDefaultField fields fs in
      (VStruct fs', err)
  | _ => (s, None)
  end.

(** [processJson]: every path is read; a file that cannot be read is
    passed over, a file that can is handed to [json.Unmarshal], whose
    error is dropped.  The result lists the paths read. *)
Fixpoint processJson (configPaths : list string) (t : type) (s : contents)
  : contents * list string * option error :=
  match configPaths with
  | [] => (s, [], None)
  | path :: rest =>
      let s' := match ReadFile path with
                | (jsonBytes, None) => fst (Unmarshal jsonBytes t s)
                | (_, Some _) => s
                end in
      let '(s'', reads, err) := processJson rest t s' in
      (s'', path :: reads, err)
  end.

(** Lines 130-142: the name of the field, or its [envconfig] tag, behind
    the prefix, in upper case. *)
Definition fieldName (ftype : StructField) : string :=
  let alt := Tag_Get (Tag ftype) "envconfig" in
  if String.eqb alt "" then Name ftype else alt.

Definition envKey (prefix : string) (ftype : StructField) : string :=
  strings.ToUpper
    (if String.eqb prefix "" then fieldName ftype
     else prefix ++ "_" ++ fieldName ftype)%string.

(** The environment pass at a field it does not recurse into
    (lines 167-177), [key] being the key computed for it. *)
Definition envLeaf (key : string) (ftype : StructField) (t : type) (f : contents)
  : contents * list string * option error :=
  match lookupEnv key with
  | Some value =>
      match processField value (Field ftype) t f with
      | (f', Some err) =>
          (f', [key],
           Some (ParseError key (fieldName ftype) (TypeString (info t)) value err))
      | (f', None) => (f', [key], None)
      end
  | None => (f, [key], None)
  end.

(** The body of the loop of [processEnvironmentValues] after the skip
    test (lines 118-177). *)
Fixpoint processEnvironmentField (prefix : string) (ftype : StructField)
         (t : type) (f : contents) {struct t}
  : contents * list string * option error :=
  match t with
  | TPtr _ elem =>
      match f with
      | VPtr None =>
          if negb (isStruct elem) then envLeaf (envKey prefix ftype) ftype t f
          else
            let '(v, keys, err) :=
              processEnvironmentField prefix ftype elem (zero elem) in
            (VPtr (Some v), keys, err)
      | VPtr (Some v) =>
          let '(v', keys, err) := processEnvironmentField prefix ftype elem v in
          (VPtr (Some v'), keys, err)
      | _ => (f, [], None)
      end
  | TStruct _ fields =>
      if noCapability (Field ftype) t then
        let innerPrefix :=
          if Anonymous ftype then prefix else envKey prefix ftype in
        match f with
        | VStruct s =>
            let '(s', keys, err) :=
              walkFields (processEnvironmentField innerPrefix) fields s in
            (VStruct s', keys, err)
        | _ => (f, [], None)
        end
      else envLeaf (envKey prefix ftype) ftype t f
  | _ => envLeaf (envKey prefix ftype) ftype t f
  end.

(** [processEnvironmentValues(prefix, spec)] on the struct [spec] points
    to. *)
Definition processEnvironmentValues (prefix : string)
           (fields : list (StructField * type)) (s : contents)
  : contents * list string * option error :=
  match s with
  | VStruct fs =>
      let '(fs', keys, err) :=
        walkFields (processEnvironmentField prefix) fields fs in
      (VStruct fs', keys, err)
  | _ => (s, [], None)
  end.

(** *** The orchestrator (source lines 200-226) *)

(** What a call of [Process] leaves behind: the value [spec] now holds,
    the files read, the environment keys looked up, and the error
    returned. *)
Record outcome := {
  spec' : iface;
  reads : list string;
  lookups : list string;
  err : option error
}.

(** [reflect.ValueOf(spec)], [s.Kind()] and [s.Elem()] on the handle
    of a pointer: [None] is the zero [reflect.Value], whose kind is
    [Invalid]. *)
Definition ValueOf (spec : iface) : option (type * contents) :=
  match spec with
  | INil => None
  | IVal t v => Some (t, v)
  end.

Inductive Kind := Invalid | Ptr | Struct | OtherKind.

Definition Kind_of (s : option (type * contents)) : Kind :=
  match s with
  | None => Invalid
  | Some (TPtr _ _, _) => Ptr
  | Some (TStruct _ _, _) => Struct
  | Some _ => OtherKind
  end.

Definition Elem (s : option (type * contents)) : option (type * contents) :=
  match s with
  | Some (TPtr _ elem, VPtr (Some v)) => Some (elem, v)
  | _ => None
  end.

Definition Process (prefix : string) (configPaths : list string) (spec : iface)
  : outcome :=
  let invalid :=
    {| spec' := spec; reads := []; lookups := [];
       err := Some ErrInvalidSpecification |} in
  let s := ValueOf spec in
  match Kind_of s with
  | Ptr =>
      let s := Elem s in
      match Kind_of s, s, spec with
      | Struct, Some (TStruct si fields, s0), IVal pt _ =>
          (* the passes write through the pointer [spec] holds *)
          let back s' := IVal pt (VPtr (Some s')) in
          let '(s1, err1) := processDefaultValues fields s0 in
          match err1 with
          | Some e =>
              {| spec' := back s1; reads := []; lookups := []; err := Some e |}
          | None =>
              let '(s2, rd, err2) :=
                processJson configPaths (TStruct si fields) s1 in
              match err2 with
              | Some e =>
                  {| spec' := back s2; reads := rd; lookups := []; err := Some e |}
              | None =>
                  let '(s3, keys, err3) :=
                    processEnvironmentValues prefix fields s2 in
                  {| spec' := back s3; reads := rd; lookups := keys; err := err3 |}
              end
          end
      | _, _, _ => invalid
      end
  | _ => invalid
  end.

(** How a call of [MustProcess] ends: it returns, or it panics with the
    error of [Process]; either way [Process] has run. *)
Inductive completion :=
| Returns (o : outcome)
| Panics (e : error) (o : outcome).

(** [MustProcess] (source lines 229-233). *)
Definition MustProcess (prefix : string) (configPaths : list string) (spec : iface)
  : completion :=
  let o := Process prefix configPaths spec in
  match err o with
  | Some e => Panics e o
  | None => Returns o
  end.

(** ** Vocabulary of the statements *)

(** Field [i] of a struct. *)
Definition structField (s : contents) (i : nat) : option contents :=
  match s with
  | VStruct fs => fs !! i
  | _ => None
  end.

Definition setField (s : contents) (i : nat) (w : contents) : contents :=
  match s with
  | VStruct fs => VStruct (<[i:=w]> fs)
  | _ => s
  end.

(** [spec] is a non-nil pointer to a struct. *)
Definition pointsToStruct (spec : iface) : bool :=
  match spec with
  | IVal (TPtr _ (TStruct _ _)) (VPtr (Some _)) => true
  | _ => false
  end.

(** A pointer to a struct with the given fields and contents. *)
Definition structSpec (pi si : typeInfo) (fields : list (StructField * type))
           (fs : list contents) : iface :=
  IVal (TPtr pi (TStruct si fields)) (VPtr (Some (VStruct fs))).

(** The struct the pointer loop of the walk ends at, for a field of type
    [t] holding [f]: its type information, its fields and its contents,
    those of a fresh struct where the loop allocates one. *)
Fixpoint resolveStruct (t : type) (f : contents)
  : option (typeInfo * list (StructField * type) * list contents) :=
  match t, f with
  | TStruct ti inner, VStruct ifs => Some (ti, inner, ifs)
  | TPtr _ elem, VPtr (Some v) => resolveStruct elem v
  | TPtr _ elem, VPtr None =>
      if isStruct elem then resolveStruct elem (zero elem) else None
  | _, _ => None
  end.

(** The contents of that field once the loop has run and [g] is stored
    where it ended. *)
Fixpoint putResolved (t : type) (f g : contents) : contents :=
  match t, f with
  | TPtr _ elem, VPtr (Some v) => VPtr (Some (putResolved elem v g))
  | TPtr _ elem, VPtr None =>
      if isStruct elem then VPtr (Some (putResolved elem (zero elem) g)) else g
  | _, _ => g
  end.

(** Settable, not ignored, and with a name. *)
Definition walked (sf : StructField) : bool :=
  negb (skipField sf) && negb (String.eqb (Name sf) "").

(** The field reached from a struct along the indices [p], one index per
    level of nesting, through struct fields that both passes recurse into:
    the struct fields passed, then the field, its type and its contents. *)
Fixpoint fieldAt (fields : list (StructField * type)) (fs : list contents)
         (p : list nat) {struct p}
  : option (list StructField * StructField * type * contents) :=
  match p with
  | [] => None
  | i :: p' =>
      match fields !! i, fs !! i with
      | Some (sf, t), Some f =>
          match p' with
          | [] => Some ([], sf, t, f)
          | _ :: _ =>
              match resolveStruct t f with
              | Some (ti, inner, ifs) =>
                  if walked sf && noCapability (Field sf) (TStruct ti inner)
                  then match fieldAt inner ifs p' with
                       | Some (path, leaf, t', f') => Some (sf :: path, leaf, t', f')
                       | None => None
                       end
                  else None
              | None => None
              end
          end
      | _, _ => None
      end
  end.

(** Every readable file among [configPaths] leaves the struct a struct in
    which the field at [p] can still be reached. *)
Definition jsonKeeps (configPaths : list string)
           (fields : list (StructField * type)) (p : list nat) : Prop :=
  forall path jsonBytes t fs,
    In path configPaths -> ReadFile path = (jsonBytes, None) ->
    is_Some (fieldAt fields fs p) ->
    exists fs', (Unmarshal jsonBytes t (VStruct fs)).1 = VStruct fs'
                /\ is_Some (fieldAt fields fs' p).

(** No readable file among [configPaths] has anything for the field at
    [p]. *)
Definition jsonSilent (configPaths : list string)
           (fields : list (StructField * type)) (p : list nat) : Prop :=
  forall path jsonBytes t fs,
    In path configPaths -> ReadFile path = (jsonBytes, None) ->
    exists fs', (Unmarshal jsonBytes t (VStruct fs)).1 = VStruct fs'
                /\ fieldAt fields fs' p = fieldAt fields fs p.

(** The kinds the [switch] of [processField] has a case for. *)
Definition builtinKind (t : type) : bool :=
  match t with
  | TBool _ | TInt _ _ | TUint _ _ | TFloat _ _ | TString _ | TSlice _ _ => true
  | _ => false
  end.

(** The conversions of the pieces of a split string, each into a fresh
    element, and the slice they make: the error of the first piece that
    fails, else all the elements. *)
Definition converted (elem : type) (pieces : list string)
  : list (contents * option error) :=
  map (fun val => processField val Index elem (zero elem)) pieces.

Definition sliceResult (field : contents) (results : list (contents * option error))
  : contents * option error :=
  match find (fun r => negb (isNil r.2)) results with
  | Some (_, Some e) => (field, Some e)
  | _ => (VSlice (map fst results), None)
  end.

(** The key the specification derives for a field reached through the
    struct fields [path]: the prefix when there is one, the names of the
    struct fields of the path that are not embedded, and the name of
    the field, joined by underscores, in upper case.  A name is the
    [envconfig] tag where the field has one. *)
Definition keySegments (prefix : string) (path : list StructField)
           (leaf : StructField) : list string :=
  (if String.eqb prefix "" then [] else [prefix])
  ++ map fieldName (List.filter (fun sf => negb (Anonymous sf)) path)
  ++ [fieldName leaf].

Definition specKey (prefix : string) (path : list StructField)
           (leaf : StructField) : string :=
  strings.ToUpper (strings.Join (keySegments prefix path leaf) "_").

(** What the environment has for a field under [key]: the conversion of
    the string found there, the contents [f] when there is none. *)
Definition fromEnvironment (key : string) (leaf : StructField) (t : type)
           (f : contents) : contents :=
  match lookupEnv key with
  | Some value => (processField value (Field leaf) t f).1
  | None => f
  end.

(** The same type with empty method sets. *)
Definition plain (i : typeInfo) : typeInfo :=
  {| PkgPath := PkgPath i; TypeName := TypeName i; TypeString := TypeString i;
     onValue := noMethods; onAddr := noMethods |}.

Definition withoutMethods (t : type) : type :=
  match t with
  | TBool i => TBool (plain i)
  | TInt i k => TInt (plain i) k
  | TUint i k => TUint (plain i) k
  | TFloat i k => TFloat (plain i) k
  | TString i => TString (plain i)
  | TSlice i elem => TSlice (plain i) elem
  | TPtr i elem => TPtr (plain i) elem
  | TStruct i fields => TStruct (plain i) fields
  | TOther i => TOther (plain i)
  end.

(** The number of commas in a string. *)
Fixpoint commas (s : string) : nat :=
  match s with
  | EmptyString => 0%nat
  | String c rest => if Ascii.eqb c "," then S (commas rest) else commas rest
  end.

(** Some field of the type, at any depth the walk can reach, carries the
    tag [key]. *)
Fixpoint tagged (key : string) (t : type) : bool :=
  match t with
  | TPtr _ elem => tagged key elem
  | TStruct _ fields =>
      existsb (fun ft => let '(sf, t') := ft in
                         negb (isNil (Tag_Lookup (Tag sf) key)) || tagged key t')
              fields
  | _ => false
  end.

(** What every key looked up under [prefix] begins with. *)
Definition namespace (prefix : string) : string :=
  if String.eqb prefix "" then "" else (strings.ToUpper prefix ++ "_")%string.

(** The errors of the package's own making that [Process] returns for a
    pointer to a struct: a [*ParseError]. *)
Definition isParseError (e : error) : bool :=
  match e with
  | ParseError _ _ _ _ _ => true
  | _ => false
  end.

Definition KeyName (e : error) : string :=
  match e with
  | ParseError key _ _ _ _ => key
  | _ => ""
  end.

Definition Value (e : error) : string :=
  match e with
  | ParseError _ _ _ value _ => value
  | _ => ""
  end.

(** The type the [switch] of [processField] looks at, and the contents
    of a field the [switch] has not written to: those it had, behind a
    pointer that is no longer nil if the field is a pointer. *)
Definition target (t : type) : type :=
  match t with
  | TPtr _ elem => elem
  | _ => t
  end.

Definition unconverted (t : type) (f : contents) : contents :=
  match t with
  | TPtr _ elem => VPtr (Some match f with VPtr (Some v) => v | _ => zero elem end)
  | _ => f
  end.

(** ** Facts about the walk *)

Section WalkFacts.

Variable body : StructField -> type -> contents -> contents * list string * option error.

(** A skipped field keeps its contents. *)
Lemma walkFields_skipped fields s i ftype t :
  fields !! i = Some (ftype, t) -> skipField ftype = true ->
  (walkFields body fields s).1.1 !! i = s !! i.
Proof.
  revert s i; induction fields as [|[ftype' t'] fields IH];
    intros [|f s] i Hi Hskip; simpl; trivial; try discriminate.
  destruct i as [|i]; simpl in *.
  - injection Hi as -> ->. rewrite Hskip.
    destruct (walkFields body fields s) as [[r keys] e]; reflexivity.
  - specialize (IH s i Hi Hskip).
    destruct (skipField ftype').
    + destruct (walkFields body fields s) as [[r keys] e]; exact IH.
    + destruct (body ftype' t' f) as [[f' keys] [e|]]; simpl; trivial.
      destruct (walkFields body fields s) as [[r keys'] e]; exact IH.
Qed.

(** The walk does not look at a skipped field: with other contents in
    it, the walk does the same to the rest, looks up the same keys and
    returns the same error. *)
Lemma walkFields_frame fields s i ftype t w :
  fields !! i = Some (ftype, t) -> skipField ftype = true ->
  walkFields body fields (<[i:=w]> s)
  = (<[i:=w]> (walkFields body fields s).1.1,
     (walkFields body fields s).1.2, (walkFields body fields s).2).
Proof.
  revert s i; induction fields as [|[ftype' t'] fields IH];
    intros [|f s] i Hi Hskip; simpl; trivial; try discriminate.
  destruct i as [|i]; simpl in *.
  - injection Hi as -> ->. rewrite Hskip.
    destruct (walkFields body fields s) as [[r keys] e]; reflexivity.
  - specialize (IH s i Hi Hskip).
    destruct (skipField ftype').
    + rewrite IH. destruct (walkFields body fields s) as [[r keys] e]; reflexivity.
    + destruct (body ftype' t' f) as [[f' keys] [e|]]; simpl; trivial.
      rewrite IH. destruct (walkFields body fields s) as [[r keys'] e]; reflexivity.
Qed.

(** When the walk returns no error, a field that is not skipped holds
    what [body] made of it, and [body] returned no error there. *)
Lemma walkFields_visited fields s i ftype t f :
  fields !! i = Some (ftype, t) -> s !! i = Some f ->
  skipField ftype = false ->
  (walkFields body fields s).2 = None ->
  (walkFields body fields s).1.1 !! i = Some (body ftype t f).1.1
  /\ (body ftype t f).2 = None.
Proof.
  revert s i; induction fields as [|[ftype' t'] fields IH];
    intros [|f0 s] i Hi Hf Hskip; try discriminate.
  destruct i as [|i]; simpl in *.
  - injection Hi as -> ->. injection Hf as ->. rewrite Hskip.
    destruct (body ftype t f) as [[f' keys] [e|]]; simpl; [discriminate|].
    destruct (walkFields body fields s) as [[r keys'] e]; simpl. auto.
  - specialize (IH s i Hi Hf Hskip).
    destruct (skipField ftype').
    + destruct (walkFields body fields s) as [[r keys] e]; exact IH.
    + destruct (body ftype' t' f0) as [[f' keys] [e|]]; simpl; [discriminate|].
      destruct (walkFields body fields s) as [[r keys'] e]; exact IH.
Qed.

(** A field holds after the walk what it held before, or what [body]
    made of it. *)
Lemma walkFields_cases fields s i ftype t f :
  fields !! i = Some (ftype, t) -> s !! i = Some f ->
  (walkFields body fields s).1.1 !! i = Some f
  \/ (skipField ftype = false
      /\ (walkFields body fields s).1.1 !! i = Some (body ftype t f).1.1).
Proof.
  revert s i; induction fields as [|[ftype' t'] fields IH];
    intros [|f0 s] i Hi Hf; try discriminate.
  destruct i as [|i]; simpl in *.
  - injection Hi as -> ->. injection Hf as ->.
    destruct (skipField ftype) eqn:Hskip.
    + destruct (walkFields body fields s) as [[r keys] e]. auto.
    + destruct (body ftype t f) as [[f' keys] [e|]]; simpl; [auto|].
      destruct (walkFields body fields s) as [[r keys'] e]; simpl. auto.
  - specialize (IH s i Hi Hf).
    destruct (skipField ftype').
    + destruct (walkFields body fields s) as [[r keys] e]; exact IH.
    + destruct (body ftype' t' f0) as [[f' keys] [e|]]; simpl; [auto|].
      destruct (walkFields body fields s) as [[r keys'] e]; exact IH.
Qed.

(** When the walk returns no error, the keys [body] looked up at a field
    that is not skipped are among the keys of the walk. *)
Lemma walkFields_keys fields s i ftype t f key :
  fields !! i = Some (ftype, t) -> s !! i = Some f ->
  skipField ftype = false ->
  (walkFields body fields s).2 = None ->
  In key (body ftype t f).1.2 -> In key (walkFields body fields s).1.2.
Proof.
  revert s i; induction fields as [|[ftype' t'] fields IH];
    intros [|f0 s] i Hi Hf Hskip; try discriminate.
  destruct i as [|i]; simpl in *.
  - injection Hi as -> ->. injection Hf as ->. rewrite Hskip.
    destruct (body ftype t f) as [[f' keys] [e|]]; simpl; [discriminate|].
    destruct (walkFields body fields s) as [[r keys'] e]; simpl.
    intros _ Hin. apply in_or_app. auto.
  - specialize (IH s i Hi Hf Hskip).
    destruct (skipField ftype').
    + destruct (walkFields body fields s) as [[r keys] e]; exact IH.
    + destruct (body ftype' t' f0) as [[f' keys] [e|]]; simpl; [discriminate|].
      destruct (walkFields body fields s) as [[r keys'] e]; simpl in *.
      intros He Hin. apply in_or_app. auto.
Qed.

End WalkFacts.

(** ** Facts about the pointer loop *)

Lemma resolveStruct_put t f ti inner ifs x :
  resolveStruct t f = Some (ti, inner, ifs) ->
  resolveStruct t (putResolved t f (VStruct x)) = Some (ti, inner, x).
Proof.
  revert f; induction t as [| | | | | |pi elem IH|si fields|]; intros f; simpl;
    try discriminate.
  - destruct f as [| | | | | |[v|]| |]; try discriminate.
    + simpl. apply IH.
    + destruct (isStruct elem); [|discriminate]. simpl. apply IH.
  - destruct f; try discriminate. intros [= -> -> ->]. reflexivity.
Qed.

(** The type information and the fields of the struct the loop ends at
    are those of the type. *)
Lemma resolveStruct_static t f f' ti inner ifs ti' inner' ifs' :
  resolveStruct t f = Some (ti, inner, ifs) ->
  resolveStruct t f' = Some (ti', inner', ifs') ->
  ti = ti' /\ inner = inner'.
Proof.
  revert f f'; induction t as [| | | | | |pi elem IH|si fields|]; intros f f'; simpl;
    try discriminate.
  - destruct f as [| | | | | |[v|]| |], f' as [| | | | | |[v'|]| |];
      try discriminate; try (destruct (isStruct elem); [|discriminate]); apply IH.
  - destruct f, f'; try discriminate. intros [= -> -> ->] [= -> -> ->]. auto.
Qed.

(** The default pass at a field that resolves to a struct: the struct is
    walked, whatever its capabilities and the tags of the field. *)
Lemma processDefaultField_resolved ftype t f ti inner ifs :
  resolveStruct t f = Some (ti, inner, ifs) ->
  processDefaultField ftype t f
  = (putResolved t f (VStruct (walkFields processDefaultField inner ifs).1.1),
     (walkFields processDefaultField inner ifs).1.2,
     (walkFields processDefaultField inner ifs).2).
Proof.
  revert f; induction t as [| | | | | |pi elem IH|si fields|]; intros f; simpl;
    try discriminate.
  - destruct f as [| | | | | |[v|]| |]; try discriminate.
    + intros H. rewrite (IH v H). reflexivity.
    + destruct (isStruct elem); [|discriminate]. simpl.
      intros H. rewrite (IH _ H). reflexivity.
  - destruct f; try discriminate. intros [= -> -> ->].
    destruct (walkFields processDefaultField inner ifs) as [[s' keys] e]. reflexivity.
Qed.

(** The environment pass at a field that resolves to a struct without
    capability: the struct is walked under the prefix of the recursion
    rule. *)
Lemma processEnvironmentField_resolved prefix ftype t f ti inner ifs :
  resolveStruct t f = Some (ti, inner, ifs) ->
  noCapability (Field ftype) (TStruct ti inner) = true ->
  let w := walkFields
             (processEnvironmentField
                (if Anonymous ftype then prefix else envKey prefix ftype))
             inner ifs in
  processEnvironmentField prefix ftype t f
  = (putResolved t f (VStruct w.1.1), w.1.2, w.2).
Proof.
  intros Hres Hcap w. subst w.
  revert f Hres; induction t as [| | | | | |pi elem IH|si fields|]; intros f; simpl;
    try discriminate.
  - destruct f as [| | | | | |[v|]| |]; try discriminate.
    + intros H. rewrite (IH v H). reflexivity.
    + destruct (isStruct elem); [|discriminate]. simpl.
      intros H. rewrite (IH _ H). reflexivity.
  - destruct f; try discriminate. intros [= -> -> ->]. rewrite Hcap.
    destruct (walkFields _ inner ifs) as [[s' keys] e]. reflexivity.
Qed.

(** The environment pass at a field that resolves to a struct with a
    capability: the key of the field is looked up and the struct is the
    field the engine converts into. *)
Lemma processEnvironmentField_capable prefix ftype t f ti inner ifs :
  resolveStruct t f = Some (ti, inner, ifs) ->
  noCapability (Field ftype) (TStruct ti inner) = false ->
  let r := envLeaf (envKey prefix ftype) ftype (TStruct ti inner) (VStruct ifs) in
  processEnvironmentField prefix ftype t f = (putResolved t f r.1.1, r.1.2, r.2).
Proof.
  intros Hres Hcap r. subst r.
  revert f Hres; induction t as [| | | | | |pi elem IH|si fields|]; intros f; simpl;
    try discriminate.
  - destruct f as [| | | | | |[v|]| |]; try discriminate.
    + intros H. rewrite (IH v H). reflexivity.
    + destruct (isStruct elem); [|discriminate]. simpl.
      intros H. rewrite (IH _ H). reflexivity.
  - destruct f; try discriminate. intros [= -> -> ->]. rewrite Hcap.
    destruct (envLeaf _ ftype (TStruct ti inner) (VStruct ifs)) as [[f' keys] e].
    reflexivity.
Qed.

(** ** Facts about paths *)

Lemma fieldAt_top fields fs i :
  fieldAt fields fs [i]
  = match fields !! i, fs !! i with
    | Some (sf, t), Some f => Some ([], sf, t, f)
    | _, _ => None
    end.
Proof. reflexivity. Qed.

Lemma fieldAt_nested fields fs i j p :
  fieldAt fields fs (i :: j :: p)
  = match fields !! i, fs !! i with
    | Some (sf, t), Some f =>
        match resolveStruct t f with
        | Some (ti, inner, ifs) =>
            if walked sf && noCapability (Field sf) (TStruct ti inner)
            then match fieldAt inner ifs (j :: p) with
                 | Some (path, leaf, t', f') => Some (sf :: path, leaf, t', f')
                 | None => None
                 end
            else None
        | None => None
        end
    | _, _ => None
    end.
Proof. reflexivity. Qed.

(** Which field a path leads to, and past which struct fields, depends on
    the types only. *)
Lemma fieldAt_static fields p :
  forall fs fs' path leaf t f path' leaf' t' f',
    fieldAt fields fs p = Some (path, leaf, t, f) ->
    fieldAt fields fs' p = Some (path', leaf', t', f') ->
    path = path' /\ leaf = leaf' /\ t = t'.
Proof.
  revert fields; induction p as [|i [|j p] IH]; intros fields fs fs' path leaf t f
                                                      path' leaf' t' f'.
  - discriminate.
  - rewrite !fieldAt_top.
    destruct (fields !! i) as [[sf ti]|]; [|discriminate].
    destruct (fs !! i), (fs' !! i); try discriminate.
    intros [= <- <- <- <-] [= <- <- <- <-]. auto.
  - rewrite !fieldAt_nested.
    destruct (fields !! i) as [[sf ti]|]; [|discriminate].
    destruct (fs !! i) as [fi|], (fs' !! i) as [fi'|]; try discriminate.
    destruct (resolveStruct ti fi) as [[[si inner] ifs]|] eqn:Hres; [|discriminate].
    destruct (resolveStruct ti fi') as [[[si' inner'] ifs']|] eqn:Hres'; [|discriminate].
    destruct (resolveStruct_static _ _ _ _ _ _ _ _ _ Hres Hres') as [<- <-].
    destruct (walked sf && noCapability (Field sf) (TStruct si inner)); [|discriminate].
    destruct (fieldAt inner ifs (j :: p)) as [[[[pa le] ty] fc]|] eqn:H1; [|discriminate].
    destruct (fieldAt inner ifs' (j :: p)) as [[[[pa' le'] ty'] fc']|] eqn:H2;
      [|discriminate].
    destruct (IH _ _ _ _ _ _ _ _ _ _ _ H1 H2) as (<- & <- & <-).
    intros [= <- <- <- <-] [= <- <- <- <-]. auto.
Qed.

(** ** Facts about the coercion engine *)

Lemma noCapability_nil fl t :
  noCapability fl t = true ->
  decoderFrom fl t = None /\ setterFrom fl t = None /\ textUnmarshaler fl t = None.
Proof.
  unfold noCapability.
  destruct (decoderFrom fl t), (setterFrom fl t), (textUnmarshaler fl t);
    simpl; intros; try discriminate; auto.
Qed.

Lemma noCapability_plain fl t : noCapability fl (withoutMethods t) = true.
Proof.
  unfold noCapability, decoderFrom, setterFrom, textUnmarshaler, interfaceFrom.
  destruct t, (CanInterface fl), (CanAddr fl); reflexivity.
Qed.

(** The slice case of the switch. *)
Lemma processField_slice value fl ti elem field :
  noCapability fl (TSlice ti elem) = true ->
  processField value fl (TSlice ti elem) field
  = sliceResult field (converted elem (strings.Split value ",")).
Proof.
  intros Hcap. apply noCapability_nil in Hcap as (Hd & Hs & Ht).
  simpl processField. rewrite Hd, Hs, Ht.
  generalize (strings.Split value ",") as pieces. intros pieces.
  unfold sliceResult, converted.
  match goal with |- match ?F pieces with _ => _ end = _ => set (fill := F) end.
  assert (forall vals,
    match fill vals with
    | inl sl =>
        find (fun r => negb (isNil r.2))
             (map (fun val => processField val Index elem (zero elem)) vals) = None
        /\ sl = map fst (map (fun val => processField val Index elem (zero elem)) vals)
    | inr e =>
        exists v, find (fun r => negb (isNil r.2))
                       (map (fun val => processField val Index elem (zero elem)) vals)
                  = Some (v, Some e)
    end) as Hfill.
  { induction vals as [|val rest IH]; simpl; [auto|].
    destruct (processField val Index elem (zero elem)) as [v [e|]]; simpl; [eauto|].
    destruct (fill rest) as [sl|e]; [|exact IH].
    destruct IH as [-> ->]. auto. }
  specialize (Hfill pieces). destruct (fill pieces) as [sl|e].
  - destruct Hfill as [-> ->]. reflexivity.
  - destruct Hfill as [v ->]. reflexivity.
Qed.


(** The handles the walk gives the engine are settable, and so are the
    elements of the slices the engine makes. *)
Lemma walk_handles_settable ftype :
  skipField ftype = false -> CanSet (Field ftype) = true /\ CanSet Index = true.
Proof.
  unfold skipField. destruct (CanSet (Field ftype)); simpl; [auto|discriminate].
Qed.

Lemma interfaceFrom_settable {A : Type} fl t (fn : methodSet -> option A) :
  CanSet fl = true ->
  interfaceFrom fl t fn
  = match fn (onValue (info t)) with
    | Some m => Some m
    | None => fn (onAddr (info t))
    end.
Proof.
  unfold CanSet, interfaceFrom, CanInterface, CanAddr.
  destruct (flagAddr fl), (flagRO fl); simpl; intros; try discriminate; reflexivity.
Qed.

(** With no capability in the way the engine does what it does for the
    type stripped of its methods. *)
Lemma processField_generic value fl typ field :
  noCapability fl typ = true ->
  processField value fl typ field = processField value fl (withoutMethods typ) field.
Proof.
  intros Hcap. pose proof (noCapability_plain fl typ) as Hplain.
  apply noCapability_nil in Hcap as (Hd & Hs & Ht).
  apply noCapability_nil in Hplain as (Hd' & Hs' & Ht').
  destruct typ; simpl in *; rewrite Hd, Hs, Ht, Hd', Hs', Ht'; reflexivity.
Qed.

Lemma processField_string value fl i field :
  noCapability fl (TString i) = true ->
  processField value fl (TString i) field = (VString value, None).
Proof.
  intros Hcap. apply noCapability_nil in Hcap as (Hd & Hs & Ht).
  simpl. rewrite Hd, Hs, Ht. reflexivity.
Qed.

(** At a field that is neither a pointer nor a struct the two passes go
    straight to the tag and to the key. *)
Lemma processDefaultField_leaf ftype t f :
  isPtr t = false -> isStruct t = false ->
  processDefaultField ftype t f = defaultLeaf ftype t f.
Proof. destruct t; simpl; intros; try discriminate; reflexivity. Qed.

Lemma processEnvironmentField_leaf prefix ftype t f :
  isPtr t = false -> isStruct t = false ->
  processEnvironmentField prefix ftype t f = envLeaf (envKey prefix ftype) ftype t f.
Proof. destruct t; simpl; intros; try discriminate; reflexivity. Qed.


Lemma envLeaf_fromEnvironment key ftype t f :
  (envLeaf key ftype t f).1.1 = fromEnvironment key ftype t f
  /\ (envLeaf key ftype t f).1.2 = [key].
Proof.
  unfold envLeaf, fromEnvironment. destruct (lookupEnv key) as [value|]; [|auto].
  destruct (processField value (Field ftype) t f) as [f' [e|]]; auto.
Qed.


(** ** Facts about keys *)

Lemma upperByte_idem c : strings.upperByte (strings.upperByte c) = strings.upperByte c.
Proof. destruct c as [[] [] [] [] [] [] [] []]; reflexivity. Qed.

Lemma ToUpper_idem s : strings.ToUpper (strings.ToUpper s) = strings.ToUpper s.
Proof. induction s as [|c s IH]; simpl; [|rewrite upperByte_idem, IH]; reflexivity. Qed.

Lemma ToUpper_app a b :
  strings.ToUpper (a ++ b) = (strings.ToUpper a ++ strings.ToUpper b)%string.
Proof. induction a as [|c a IH]; simpl; [|rewrite IH]; reflexivity. Qed.

Lemma append_assoc (a b c : string) : ((a ++ b) ++ c = a ++ b ++ c)%string.
Proof. induction a as [|x a IH]; simpl; [|rewrite IH]; reflexivity. Qed.

Lemma Join_cons k x l sep :
  strings.Join (k :: x :: l) sep = (k ++ sep ++ strings.Join (x :: l) sep)%string.
Proof. reflexivity. Qed.

Lemma ToUpper_empty s : strings.ToUpper s = "" -> s = "".
Proof. destruct s; simpl; [reflexivity|discriminate]. Qed.

Lemma append_empty a b : (a ++ b)%string = "" -> a = "".
Proof. destruct a; simpl; [reflexivity|discriminate]. Qed.

Lemma fieldName_named sf : String.eqb (Name sf) "" = false -> fieldName sf <> "".
Proof.
  unfold fieldName. intros Hname.
  destruct (String.eqb (Tag_Get (Tag sf) "envconfig") "") eqn:Halt.
  - intros Heq. rewrite Heq in Hname. discriminate.
  - intros Heq. rewrite Heq in Halt. discriminate.
Qed.

Lemma envKey_named prefix sf :
  String.eqb (Name sf) "" = false -> String.eqb (envKey prefix sf) "" = false.
Proof.
  intros Hname. apply fieldName_named in Hname.
  apply String.eqb_neq. intros Heq. apply Hname. unfold envKey in Heq.
  apply ToUpper_empty in Heq.
  destruct (String.eqb prefix "") eqn:Hp; [exact Heq|].
  apply append_empty in Heq. apply String.eqb_neq in Hp. contradiction.
Qed.

(** The key of a field is the specification's key with an empty path. *)
Lemma envKey_specKey prefix leaf : envKey prefix leaf = specKey prefix [] leaf.
Proof.
  unfold envKey, specKey, keySegments. destruct (String.eqb prefix ""); reflexivity.
Qed.

(** One level down: with the key of a named struct field as the prefix,
    the specification's key is the one for the longer path. *)
Lemma specKey_step prefix sf path leaf :
  String.eqb (Name sf) "" = false ->
  specKey (if Anonymous sf then prefix else envKey prefix sf) path leaf
  = specKey prefix (sf :: path) leaf.
Proof.
  intros Hname. unfold specKey, keySegments. cbn [List.filter].
  destruct (Anonymous sf); cbn [negb]; [reflexivity|].
  rewrite (envKey_named prefix sf Hname). cbn [map app].
  remember (map fieldName (List.filter (fun sf0 => negb (Anonymous sf0)) path)
            ++ [fieldName leaf])%list as segs eqn:Hsegs.
  destruct segs as [|seg rest].
  { destruct (map fieldName _); discriminate. }
  unfold envKey.
  destruct (String.eqb prefix ""); cbn [app]; rewrite !Join_cons.
  - rewrite (ToUpper_app (strings.ToUpper _)), ToUpper_idem, <- ToUpper_app.
    reflexivity.
  - rewrite (ToUpper_app (strings.ToUpper _)), ToUpper_idem, <- ToUpper_app.
    rewrite !append_assoc. reflexivity.
Qed.

Lemma walked_inv sf :
  walked sf = true -> skipField sf = false /\ String.eqb (Name sf) "" = false.
Proof.
  unfold walked. destruct (skipField sf), (String.eqb (Name sf) "");
    simpl; intros; try discriminate; auto.
Qed.

(** ** The two walks along a path *)

(** The default pass reaches the field at the end of a path when it
    returns no error, and does there what it does to a field. *)
Lemma default_fieldAt_visited p :
  forall fields fs path leaf t f,
    fieldAt fields fs p = Some (path, leaf, t, f) ->
    skipField leaf = false ->
    (walkFields processDefaultField fields fs).2 = None ->
    fieldAt fields (walkFields processDefaultField fields fs).1.1 p
    = Some (path, leaf, t, (processDefaultField leaf t f).1.1)
    /\ (processDefaultField leaf t f).2 = None.
Proof.
  induction p as [|i [|j p] IH]; intros fields fs path leaf t f Hat Hskip Herr.
  - discriminate.
  - rewrite fieldAt_top in Hat |- *.
    destruct (fields !! i) as [[sf ti]|] eqn:Hi; [|discriminate].
    destruct (fs !! i) as [fi|] eqn:Hf; [|discriminate].
    injection Hat as <- -> -> ->.
    destruct (walkFields_visited _ fields fs i leaf t f Hi Hf Hskip Herr) as [-> He].
    auto.
  - rewrite fieldAt_nested in Hat |- *.
    destruct (fields !! i) as [[sf ti]|] eqn:Hi; [|discriminate].
    destruct (fs !! i) as [fi|] eqn:Hf; [|discriminate].
    destruct (resolveStruct ti fi) as [[[si inner] ifs]|] eqn:Hres; [|discriminate].
    destruct (walked sf && noCapability (Field sf) (TStruct si inner)) eqn:Hcond;
      [|discriminate].
    destruct (fieldAt inner ifs (j :: p)) as [[[[pa le] ty] fc]|] eqn:Hin; [|discriminate].
    injection Hat as <- <- <- <-.
    pose proof Hcond as Hw. apply andb_true_iff in Hw as [Hw _].
    apply walked_inv in Hw as [Hsk _].
    destruct (walkFields_visited _ fields fs i sf ti fi Hi Hf Hsk Herr) as [-> He].
    rewrite (processDefaultField_resolved sf ti fi si inner ifs Hres) in He |- *.
    cbn [fst snd] in He |- *.
    rewrite (resolveStruct_put ti fi si inner ifs _ Hres), Hcond.
    destruct (IH inner ifs pa le ty fc Hin Hskip He) as [-> He'].
    auto.
Qed.

(** The default pass leaves a skipped field at the end of a path as it
    was, error or not. *)
Lemma default_fieldAt_skipped p :
  forall fields fs path leaf t f,
    fieldAt fields fs p = Some (path, leaf, t, f) ->
    skipField leaf = true ->
    fieldAt fields (walkFields processDefaultField fields fs).1.1 p
    = Some (path, leaf, t, f).
Proof.
  induction p as [|i [|j p] IH]; intros fields fs path leaf t f Hat Hskip.
  - discriminate.
  - rewrite fieldAt_top in Hat |- *.
    destruct (fields !! i) as [[sf ti]|] eqn:Hi; [|discriminate].
    destruct (fs !! i) as [fi|] eqn:Hf; [|discriminate].
    injection Hat as <- -> -> ->.
    rewrite (walkFields_skipped _ fields fs i leaf t Hi Hskip), Hf. reflexivity.
  - pose proof Hat as Hat'. rewrite fieldAt_nested in Hat |- *.
    destruct (fields !! i) as [[sf ti]|] eqn:Hi; [|discriminate].
    destruct (fs !! i) as [fi|] eqn:Hf; [|discriminate].
    destruct (walkFields_cases processDefaultField fields fs i sf ti fi Hi Hf)
      as [->|[Hsk ->]]; [exact Hat|].
    destruct (resolveStruct ti fi) as [[[si inner] ifs]|] eqn:Hres; [|discriminate].
    destruct (walked sf && noCapability (Field sf) (TStruct si inner)) eqn:Hcond;
      [|discriminate].
    destruct (fieldAt inner ifs (j :: p)) as [[[[pa le] ty] fc]|] eqn:Hin; [|discriminate].
    injection Hat as <- <- <- <-.
    rewrite (processDefaultField_resolved sf ti fi si inner ifs Hres). cbn [fst snd].
    rewrite (resolveStruct_put ti fi si inner ifs _ Hres), Hcond.
    rewrite (IH inner ifs pa le ty fc Hin Hskip). reflexivity.
Qed.

(** The environment pass reaches the field at the end of a path when it
    returns no error; a field that is neither a pointer nor a struct is
    looked up there under the key of the specification. *)
Lemma env_fieldAt_visited p :
  forall prefix fields fs path leaf t f,
    fieldAt fields fs p = Some (path, leaf, t, f) ->
    skipField leaf = false ->
    isPtr t = false -> isStruct t = false ->
    let w := walkFields (processEnvironmentField prefix) fields fs in
    let r := envLeaf (specKey prefix path leaf) leaf t f in
    w.2 = None ->
    fieldAt fields w.1.1 p = Some (path, leaf, t, r.1.1)
    /\ r.2 = None
    /\ In (specKey prefix path leaf) w.1.2.
Proof.
  induction p as [|i [|j p] IH];
    intros prefix fields fs path leaf t f Hat Hskip Hptr Hstruct w r Herr; subst w r.
  - discriminate.
  - rewrite fieldAt_top in Hat |- *.
    destruct (fields !! i) as [[sf ti]|] eqn:Hi; [|discriminate].
    destruct (fs !! i) as [fi|] eqn:Hf; [|discriminate].
    injection Hat as <- -> -> ->.
    destruct (walkFields_visited _ fields fs i leaf t f Hi Hf Hskip Herr) as [-> He].
    pose proof (walkFields_keys _ fields fs i leaf t f (specKey prefix [] leaf)
                  Hi Hf Hskip Herr) as Hkeys.
    rewrite processEnvironmentField_leaf, envKey_specKey in He, Hkeys |- * by assumption.
    repeat split; trivial. apply Hkeys.
    rewrite (proj2 (envLeaf_fromEnvironment _ leaf t f)). now left.
  - rewrite fieldAt_nested in Hat |- *.
    destruct (fields !! i) as [[sf ti]|] eqn:Hi; [|discriminate].
    destruct (fs !! i) as [fi|] eqn:Hf; [|discriminate].
    destruct (resolveStruct ti fi) as [[[si inner] ifs]|] eqn:Hres; [|discriminate].
    destruct (walked sf && noCapability (Field sf) (TStruct si inner)) eqn:Hcond;
      [|discriminate].
    destruct (fieldAt inner ifs (j :: p)) as [[[[pa le] ty] fc]|] eqn:Hin; [|discriminate].
    injection Hat as <- <- <- <-.
    pose proof Hcond as Hw. apply andb_true_iff in Hw as [Hw Hcap].
    apply walked_inv in Hw as [Hsk Hname].
    destruct (walkFields_visited _ fields fs i sf ti fi Hi Hf Hsk Herr) as [-> He].
    pose proof (walkFields_keys _ fields fs i sf ti fi (specKey prefix (sf :: pa) le)
                  Hi Hf Hsk Herr) as Hkeys.
    rewrite (processEnvironmentField_resolved prefix sf ti fi si inner ifs Hres Hcap)
      in He, Hkeys |- *.
    cbn [fst snd] in He, Hkeys |- *.
    rewrite (resolveStruct_put ti fi si inner ifs _ Hres), Hcond.
    destruct (IH (if Anonymous sf then prefix else envKey prefix sf)
                 inner ifs pa le ty fc Hin Hskip Hptr Hstruct He) as (-> & He' & Hk').
    rewrite specKey_step in He', Hk' |- * by exact Hname. auto.
Qed.

(** The environment pass leaves a skipped field at the end of a path as
    it was, error or not. *)
Lemma env_fieldAt_skipped p :
  forall prefix fields fs path leaf t f,
    fieldAt fields fs p = Some (path, leaf, t, f) ->
    skipField leaf = true ->
    fieldAt fields (walkFields (processEnvironmentField prefix) fields fs).1.1 p
    = Some (path, leaf, t, f).
Proof.
  induction p as [|i [|j p] IH]; intros prefix fields fs path leaf t f Hat Hskip.
  - discriminate.
  - rewrite fieldAt_top in Hat |- *.
    destruct (fields !! i) as [[sf ti]|] eqn:Hi; [|discriminate].
    destruct (fs !! i) as [fi|] eqn:Hf; [|discriminate].
    injection Hat as <- -> -> ->.
    rewrite (walkFields_skipped _ fields fs i leaf t Hi Hskip), Hf. reflexivity.
  - pose proof Hat as Hat'. rewrite fieldAt_nested in Hat |- *.
    destruct (fields !! i) as [[sf ti]|] eqn:Hi; [|discriminate].
    destruct (fs !! i) as [fi|] eqn:Hf; [|discriminate].
    destruct (walkFields_cases (processEnvironmentField prefix) fields fs i sf ti fi Hi Hf)
      as [->|[Hsk ->]]; [exact Hat|].
    destruct (resolveStruct ti fi) as [[[si inner] ifs]|] eqn:Hres; [|discriminate].
    destruct (walked sf && noCapability (Field sf) (TStruct si inner)) eqn:Hcond;
      [|discriminate].
    destruct (fieldAt inner ifs (j :: p)) as [[[[pa le] ty] fc]|] eqn:Hin; [|discriminate].
    injection Hat as <- <- <- <-.
    pose proof Hcond as Hw. apply andb_true_iff in Hw as [_ Hcap].
    rewrite (processEnvironmentField_resolved prefix sf ti fi si inner ifs Hres Hcap).
    cbn [fst snd].
    rewrite (resolveStruct_put ti fi si inner ifs _ Hres), Hcond.
    rewrite (IH _ inner ifs pa le ty fc Hin Hskip). reflexivity.
Qed.
(** ** Facts about the passes *)

Lemma processJson_err configPaths t s :
  (processJson configPaths t s).2 = None.
Proof.
  revert s; induction configPaths as [|path rest IH]; intros s; simpl; trivial.
  match goal with |- context [processJson rest t ?x] => specialize (IH x);
    destruct (processJson rest t x) as [[s'' rd] e] end.
  exact IH.
Qed.

Lemma processJson_reads configPaths t s :
  (processJson configPaths t s).1.2 = configPaths.
Proof.
  revert s; induction configPaths as [|path rest IH]; intros s; simpl; trivial.
  match goal with |- context [processJson rest t ?x] => specialize (IH x);
    destruct (processJson rest t x) as [[s'' rd] e] end.
  simpl in *. congruence.
Qed.

Lemma processJson_cons path rest t s :
  processJson (path :: rest) t s
  = let s' := match ReadFile path with
              | (jsonBytes, None) => (Unmarshal jsonBytes t s).1
              | (_, Some _) => s
              end in
    ((processJson rest t s').1.1, path :: rest, None).
Proof.
  simpl.
  match goal with |- context [processJson rest t ?x] =>
    pose proof (processJson_err rest t x) as He;
    pose proof (processJson_reads rest t x) as Hr;
    destruct (processJson rest t x) as [[s'' rd] e] end.
  simpl in *. subst. reflexivity.
Qed.

Lemma processJson_keeps configPaths t fields p fs :
  jsonKeeps configPaths fields p ->
  is_Some (fieldAt fields fs p) ->
  exists fs', (processJson configPaths t (VStruct fs)).1.1 = VStruct fs'
              /\ is_Some (fieldAt fields fs' p).
Proof.
  revert fs; induction configPaths as [|path rest IH]; intros fs Hkeeps Hsome.
  - exists fs. auto.
  - rewrite processJson_cons. cbn zeta. cbn [fst].
    assert (jsonKeeps rest fields p) as Hrest.
    { intros q b t' fs' Hin. apply Hkeeps. now right. }
    destruct (ReadFile path) as [jsonBytes [e|]] eqn:Hread; [now apply IH|].
    destruct (Hkeeps path jsonBytes t fs (or_introl eq_refl) Hread Hsome)
      as (fs1 & -> & Hsome1).
    now apply IH.
Qed.

Lemma processJson_silent configPaths t fields p fs :
  jsonSilent configPaths fields p ->
  exists fs', (processJson configPaths t (VStruct fs)).1.1 = VStruct fs'
              /\ fieldAt fields fs' p = fieldAt fields fs p.
Proof.
  revert fs; induction configPaths as [|path rest IH]; intros fs Hsilent.
  - exists fs. auto.
  - rewrite processJson_cons. cbn zeta. cbn [fst].
    assert (jsonSilent rest fields p) as Hrest.
    { intros q b t' fs' Hin. apply Hsilent. now right. }
    destruct (ReadFile path) as [jsonBytes [e|]] eqn:Hread; [now apply IH|].
    destruct (Hsilent path jsonBytes t fs (or_introl eq_refl) Hread) as (fs1 & -> & H1).
    destruct (IH fs1 Hrest) as (fs2 & -> & H2). exists fs2. split; [reflexivity|].
    congruence.
Qed.

(** [Process] on a pointer to a struct, pass by pass. *)
Lemma Process_struct prefix configPaths pi si fields fs :
  let d := walkFields processDefaultField fields fs in
  let j := (processJson configPaths (TStruct si fields) (VStruct d.1.1)).1.1 in
  let e := processEnvironmentValues prefix fields j in
  Process prefix configPaths (structSpec pi si fields fs)
  = match d.2 with
    | Some err1 =>
        {| spec' := structSpec pi si fields d.1.1;
           reads := []; lookups := []; err := Some err1 |}
    | None =>
        {| spec' := IVal (TPtr pi (TStruct si fields)) (VPtr (Some e.1.1));
           reads := configPaths; lookups := e.1.2; err := e.2 |}
    end.
Proof.
  intros d j e. unfold Process, structSpec. simpl.
  fold d. destruct d as [[fs1 keys1] [err1|]] eqn:Hd; simpl; [reflexivity|].
  subst j e. simpl.
  pose proof (processJson_err configPaths (TStruct si fields) (VStruct fs1)) as He.
  pose proof (processJson_reads configPaths (TStruct si fields) (VStruct fs1)) as Hr.
  destruct (processJson configPaths (TStruct si fields) (VStruct fs1)) as [[s2 rd] e2].
  simpl in *. subst.
  destruct (processEnvironmentValues prefix fields s2) as [[s3 keys] e3]. reflexivity.
Qed.

Lemma processDefaultValues_walk fields fs :
  processDefaultValues fields (VStruct fs)
  = (VStruct (walkFields processDefaultField fields fs).1.1,
     (walkFields processDefaultField fields fs).2).
Proof.
  simpl. destruct (walkFields processDefaultField fields fs) as [[r keys] e].
  reflexivity.
Qed.

Lemma processEnvironmentValues_walk prefix fields fs :
  processEnvironmentValues prefix fields (VStruct fs)
  = (VStruct (walkFields (processEnvironmentField prefix) fields fs).1.1,
     (walkFields (processEnvironmentField prefix) fields fs).1.2,
     (walkFields (processEnvironmentField prefix) fields fs).2).
Proof.
  simpl. destruct (walkFields (processEnvironmentField prefix) fields fs) as [[r keys] e].
  reflexivity.
Qed.

Lemma jsonSilent_keeps configPaths fields p :
  jsonSilent configPaths fields p -> jsonKeeps configPaths fields p.
Proof.
  intros Hsil path jsonBytes t fs Hin Hread Hsome.
  destruct (Hsil path jsonBytes t fs Hin Hread) as (fs' & Heq & Hat).
  exists fs'. split; [exact Heq|]. rewrite Hat. exact Hsome.
Qed.

(** What the three passes make of the field at the end of a path when
    [Process] returns no error: the default pass acts on the caller's
    contents, the file pass leaves some [f2] (the default pass's result if
    no file has anything for the field), the environment pass looks up
    the key of the specification and acts on [f2]. *)
Lemma Process_fieldAt prefix configPaths pi si fields fs p path leaf t f :
  jsonKeeps configPaths fields p ->
  fieldAt fields fs p = Some (path, leaf, t, f) ->
  skipField leaf = false ->
  isPtr t = false -> isStruct t = false ->
  let o := Process prefix configPaths (structSpec pi si fields fs) in
  err o = None ->
  exists fs2 f2 fs3,
    (defaultLeaf leaf t f).2 = None
    /\ (processJson configPaths (TStruct si fields)
                    (processDefaultValues fields (VStruct fs)).1).1.1 = VStruct fs2
    /\ fieldAt fields fs2 p = Some (path, leaf, t, f2)
    /\ (jsonSilent configPaths fields p -> f2 = (defaultLeaf leaf t f).1.1)
    /\ (envLeaf (specKey prefix path leaf) leaf t f2).2 = None
    /\ spec' o = structSpec pi si fields fs3
    /\ fieldAt fields fs3 p
       = Some (path, leaf, t, fromEnvironment (specKey prefix path leaf) leaf t f2)
    /\ In (specKey prefix path leaf) (lookups o).
Proof.
  intros Hkeeps Hat Hskip Hptr Hstruct o. subst o. rewrite Process_struct.
  rewrite processDefaultValues_walk. cbn zeta. cbn [fst].
  set (d := walkFields processDefaultField fields fs).
  destruct (d.2) as [e1|] eqn:Hd; [discriminate|]. cbn [err spec' lookups].
  destruct (default_fieldAt_visited p fields fs path leaf t f Hat Hskip Hd) as [Hd1 Hd2].
  fold d in Hd1. rewrite processDefaultField_leaf in Hd1, Hd2 by assumption.
  destruct (processJson_keeps configPaths (TStruct si fields) fields p d.1.1 Hkeeps)
    as (fs2 & Hj & [[[[pa2 le2] ty2] f2] Hat2]); [eauto|].
  destruct (fieldAt_static fields p _ _ _ _ _ _ _ _ _ _ Hd1 Hat2) as (<- & <- & <-).
  rewrite Hj, processEnvironmentValues_walk. cbn [fst snd]. intros He.
  destruct (env_fieldAt_visited p prefix fields fs2 path leaf t f2 Hat2 Hskip Hptr Hstruct He)
    as (He1 & He2 & He3).
  rewrite (proj1 (envLeaf_fromEnvironment _ leaf t f2)) in He1.
  exists fs2, f2, (walkFields (processEnvironmentField prefix) fields fs2).1.1.
  repeat split; trivial.
  intros Hsil.
  destruct (processJson_silent configPaths (TStruct si fields) fields p d.1.1 Hsil)
    as (fs2' & Hj' & Heq).
  rewrite Hj in Hj'. injection Hj' as <-. rewrite Hat2, Hd1 in Heq. congruence.
Qed.

(** A skipped field at the end of a path keeps its contents through
    [Process] when no file has anything for it, whatever the error. *)
Lemma Process_skippedAt prefix configPaths pi si fields fs p path leaf t f :
  jsonSilent configPaths fields p ->
  fieldAt fields fs p = Some (path, leaf, t, f) ->
  skipField leaf = true ->
  exists fs3,
    spec' (Process prefix configPaths (structSpec pi si fields fs))
    = structSpec pi si fields fs3
    /\ fieldAt fields fs3 p = Some (path, leaf, t, f).
Proof.
  intros Hsil Hat Hskip. rewrite Process_struct. cbn zeta.
  set (d := walkFields processDefaultField fields fs).
  pose proof (default_fieldAt_skipped p fields fs path leaf t f Hat Hskip) as Hd.
  fold d in Hd.
  destruct (d.2) as [e1|]; cbn [spec']; [eauto|].
  destruct (processJson_silent configPaths (TStruct si fields) fields p d.1.1 Hsil)
    as (fs2 & Hj & Heq).
  rewrite Hj, processEnvironmentValues_walk. cbn [fst snd].
  eexists. split; [reflexivity|].
  apply env_fieldAt_skipped; [congruence|exact Hskip].
Qed.

(** ** The claims *)

(** C5.  If the argument of [Process] is not a non-nil pointer to a
    struct, [Process] returns [ErrInvalidSpecification] and nothing else
    happens: the argument is what it was, no file is read and no
    environment key is looked up, whatever the prefix and the paths. *)
Theorem C5_invalid_specification prefix configPaths spec :
  pointsToStruct spec = false ->
  Process prefix configPaths spec
  = {| spec' := spec; reads := []; lookups := [];
       err := Some ErrInvalidSpecification |}.
Proof.
  unfold pointsToStruct, Process. intros Hinvalid.
  destruct spec as [|t v]; [reflexivity|].
  destruct t as [| | | | | |pi elem| |]; try reflexivity.
  destruct v as [| | | | | |[s|]| |]; try reflexivity.
  destruct elem; try reflexivity. discriminate.
Qed.


(** C6.  On a slice field without a capability of its own the engine
    splits the string on commas and converts each piece into a fresh
    element: the result is the slice of the converted pieces, as long as
    the string has pieces, or, when a piece fails, the error of the
    first such piece with the field left as it was.  So "a,b,c" on a
    []string gives the three strings, and "1,2,x" on a []int fails with
    the syntax error of [strconv.ParseInt] on "x". *)
Theorem C6_slice_conversion value fl ti elem field :
  processField value fl (TSlice (plain ti) elem) field
  = sliceResult field (converted elem (strings.Split value ","))
  /\ processField "a,b,c" fl tSliceOfString field
     = (VSlice [VString "a"; VString "b"; VString "c"], None)
  /\ processField "1,2,x" fl tSliceOfInt field
     = (field, Some (NumError "ParseInt" "x" ErrSyntax)).
Proof.
  split; [|split].
  - apply processField_slice.
    exact (noCapability_plain fl (TSlice ti elem)).
  - unfold tSliceOfString.
    rewrite (processField_slice _ fl (plainInfo "[]string") tString field).
    + reflexivity.
    + exact (noCapability_plain fl (TSlice (plainInfo "[]string") tString)).
  - unfold tSliceOfInt.
    rewrite (processField_slice _ fl (plainInfo "[]int") tInt field).
    + reflexivity.
    + exact (noCapability_plain fl (TSlice (plainInfo "[]int") tInt)).
Qed.

(** C7.  On a settable field the engine hands the string to the first
    capability it finds, asking for [Decoder] on the value, [Decoder] on
    the address, [Setter] on the value, [Setter] on the address,
    [TextUnmarshaler] on the value and [TextUnmarshaler] on the address,
    in this order, and returns what the method returns; the built-in
    conversion runs only when all six are missing. *)
Theorem C7_capability_priority value fl typ field :
  CanSet fl = true ->
  processField value fl typ field
  = match Decode (onValue (info typ)) with
    | Some decoder => decoder value field
    | None =>
    match Decode (onAddr (info typ)) with
    | Some decoder => decoder value field
    | None =>
    match Set_ (onValue (info typ)) with
    | Some setter => setter value field
    | None =>
    match Set_ (onAddr (info typ)) with
    | Some setter => setter value field
    | None =>
    match UnmarshalText (onValue (info typ)) with
    | Some t => t (list_byte_of_string value) field
    | None =>
    match UnmarshalText (onAddr (info typ)) with
    | Some t => t (list_byte_of_string value) field
    | None => processField value fl (withoutMethods typ) field
    end end end end end end.
Proof.
  intros Hset.
  pose proof (interfaceFrom_settable fl typ Decode Hset) as Hd.
  pose proof (interfaceFrom_settable fl typ Set_ Hset) as Hs.
  pose proof (interfaceFrom_settable fl typ UnmarshalText Hset) as Ht.
  fold (decoderFrom fl typ) in Hd. fold (setterFrom fl typ) in Hs.
  fold (textUnmarshaler fl typ) in Ht.
  assert (processField value fl typ field
          = match decoderFrom fl typ with
            | Some decoder => decoder value field
            | None =>
            match setterFrom fl typ with
            | Some setter => setter value field
            | None =>
            match textUnmarshaler fl typ with
            | Some t => t (list_byte_of_string value) field
            | None => processField value fl (withoutMethods typ) field
            end end end) as Hfirst.
  { destruct (decoderFrom fl typ) as [d|] eqn:Ed;
      [destruct typ; simpl; rewrite Ed; reflexivity|].
    destruct (setterFrom fl typ) as [m|] eqn:Es;
      [destruct typ; simpl; rewrite Ed, Es; reflexivity|].
    destruct (textUnmarshaler fl typ) as [m|] eqn:Et;
      [destruct typ; simpl; rewrite Ed, Es, Et; reflexivity|].
    apply processField_generic. unfold noCapability. rewrite Ed, Es, Et. reflexivity. }
  rewrite Hfirst, Hd, Hs, Ht.
  destruct (Decode (onValue (info typ))); [reflexivity|].
  destruct (Decode (onAddr (info typ))); [reflexivity|].
  destruct (Set_ (onValue (info typ))); [reflexivity|].
  destruct (Set_ (onAddr (info typ))); [reflexivity|].
  destruct (UnmarshalText (onValue (info typ))); [reflexivity|].
  destruct (UnmarshalText (onAddr (info typ))); reflexivity.
Qed.



(** C3.  A field that is neither a pointer nor a struct, reached from
    the struct handed to the environment pass through the struct fields
    [path], is looked up under the upper-cased join by underscores of the
    prefix (when not empty), the names of the struct fields on the path
    that are not embedded, and the name of the field: when the pass
    returns nil that key is among the keys looked up, and the field holds
    the conversion of the string found under it, or what it held when
    there is none.  With prefix "app", [Port] is APP_PORT, [Port] inside
    the struct field [Server] is APP_SERVER_PORT, and APP_PORT again when
    [Server] is embedded. *)
Theorem C3_environment_key prefix fields fs p path leaf t f :
  fieldAt fields fs p = Some (path, leaf, t, f) ->
  skipField leaf = false ->
  isPtr t = false -> isStruct t = false ->
  (processEnvironmentValues prefix fields (VStruct fs)).2 = None ->
  In (specKey prefix path leaf)
     (processEnvironmentValues prefix fields (VStruct fs)).1.2
  /\ exists fs',
      (processEnvironmentValues prefix fields (VStruct fs)).1.1 = VStruct fs'
      /\ fieldAt fields fs' p
         = Some (path, leaf, t,
                 fromEnvironment (specKey prefix path leaf) leaf t f).
Proof.
  intros Hat Hskip Hptr Hstruct. rewrite processEnvironmentValues_walk.
  cbn [fst snd]. intros Herr.
  destruct (env_fieldAt_visited p prefix fields fs path leaf t f
              Hat Hskip Hptr Hstruct Herr) as (H1 & _ & H3).
  rewrite (proj1 (envLeaf_fromEnvironment _ leaf t f)) in H1. eauto.
Qed.

(** C8.  Take a settable, non-ignored field that is a struct, or a
    pointer the pointer loop follows to a struct.  In the default pass
    the struct is walked like the struct [Process] was given, whatever
    the capabilities of its type and whatever the default tag of the
    field.  In the environment pass it is walked, under the prefix of the
    recursion rule, only if its type has none of the three capabilities;
    otherwise the key of the field is looked up and, when present, the
    string goes to the coercion engine with the whole struct as the
    field. *)
Theorem C8_struct_recursion prefix fields fs i ftype t f ti inner ifs :
  fields !! i = Some (ftype, t) -> fs !! i = Some f ->
  resolveStruct t f = Some (ti, inner, ifs) ->
  skipField ftype = false ->
  ((processDefaultValues fields (VStruct fs)).2 = None ->
   structField (processDefaultValues fields (VStruct fs)).1 i
   = Some (putResolved t f (processDefaultValues inner (VStruct ifs)).1))
  /\ ((processEnvironmentValues prefix fields (VStruct fs)).2 = None ->
      structField (processEnvironmentValues prefix fields (VStruct fs)).1.1 i
      = Some
          (putResolved t f
             (if noCapability (Field ftype) (TStruct ti inner)
              then (processEnvironmentValues
                      (if Anonymous ftype then prefix else envKey prefix ftype)
                      inner (VStruct ifs)).1.1
              else fromEnvironment (envKey prefix ftype) ftype
                                   (TStruct ti inner) (VStruct ifs)))).
Proof.
  intros Hi Hf Hres Hskip. split.
  - rewrite !processDefaultValues_walk. cbn [fst snd structField]. intros Herr.
    destruct (walkFields_visited _ fields fs i ftype _ _ Hi Hf Hskip Herr) as [-> _].
    rewrite (processDefaultField_resolved ftype t f ti inner ifs Hres). reflexivity.
  - rewrite !processEnvironmentValues_walk. cbn [fst snd structField]. intros Herr.
    destruct (walkFields_visited _ fields fs i ftype _ _ Hi Hf Hskip Herr) as [-> _].
    destruct (noCapability (Field ftype) (TStruct ti inner)) eqn:Hcap.
    + rewrite (processEnvironmentField_resolved prefix ftype t f ti inner ifs Hres Hcap).
      reflexivity.
    + rewrite (processEnvironmentField_capable prefix ftype t f ti inner ifs Hres Hcap).
      cbn [fst]. rewrite (proj1 (envLeaf_fromEnvironment _ ftype _ _)). reflexivity.
Qed.

(** C9.  A field tagged ignored:"true" is neither written nor read by
    the two walks: with other contents in it either walk of the struct
    that has the field does the same to the other fields, looks up the
    same keys and returns the same error, and leaves those contents in
    place.  So when no file has anything for the field, wherever it is
    in the struct handed to [Process], it holds after [Process] what it
    held before, its zero value if that is what it held, whatever its
    default tag and the environment and whether or not [Process]
    fails. *)
Theorem C9_ignored_untouched
        prefix configPaths pi si fields fs p path leaf t f sfields sfs i :
  jsonSilent configPaths fields p ->
  fieldAt fields fs p = Some (path, leaf, t, f) ->
  Tag_Get (Tag leaf) "ignored" = "true" ->
  sfields !! i = Some (leaf, t) ->
  (forall w,
      processDefaultValues sfields (VStruct (<[i:=w]> sfs))
      = (setField (processDefaultValues sfields (VStruct sfs)).1 i w,
         (processDefaultValues sfields (VStruct sfs)).2))
  /\ (forall prefix' w,
        processEnvironmentValues prefix' sfields (VStruct (<[i:=w]> sfs))
        = (setField (processEnvironmentValues prefix' sfields (VStruct sfs)).1.1 i w,
           (processEnvironmentValues prefix' sfields (VStruct sfs)).1.2,
           (processEnvironmentValues prefix' sfields (VStruct sfs)).2))
  /\ exists fs',
      spec' (Process prefix configPaths (structSpec pi si fields fs))
      = structSpec pi si fields fs'
      /\ fieldAt fields fs' p = Some (path, leaf, t, f).
Proof.
  intros Hsil Hat Hign Hi.
  assert (skipField leaf = true) as Hskip.
  { unfold skipField. rewrite Hign. apply orb_true_r. }
  split; [|split].
  - intros w. rewrite !processDefaultValues_walk. cbn [fst snd setField].
    rewrite (walkFields_frame _ sfields sfs i leaf t w Hi Hskip). reflexivity.
  - intros prefix' w. rewrite !processEnvironmentValues_walk. cbn [fst snd setField].
    rewrite (walkFields_frame _ sfields sfs i leaf t w Hi Hskip). reflexivity.
  - exact (Process_skippedAt prefix configPaths pi si fields fs p path leaf t f
             Hsil Hat Hskip).
Qed.

(** C10.  Take a []string field, without capabilities on the slice or
    on its elements, whose key is in the environment with the empty
    string as its value.  The environment pass makes of the field,
    whatever it held, the one-element slice of the empty string, and
    returns no error there; and when [Process] returns nil this is what
    the field holds. *)
Theorem C10_empty_value_one_element
        prefix configPaths pi si fields fs p path leaf ti ei f :
  jsonKeeps configPaths fields p ->
  fieldAt fields fs p = Some (path, leaf, TSlice ti (TString ei), f) ->
  skipField leaf = false ->
  noCapability (Field leaf) (TSlice ti (TString ei)) = true ->
  noCapability Index (TString ei) = true ->
  lookupEnv (specKey prefix path leaf) = Some "" ->
  (forall w,
      envLeaf (specKey prefix path leaf) leaf (TSlice ti (TString ei)) w
      = (VSlice [VString ""], [specKey prefix path leaf], None))
  /\ (err (Process prefix configPaths (structSpec pi si fields fs)) = None ->
      exists fs',
        spec' (Process prefix configPaths (structSpec pi si fields fs))
        = structSpec pi si fields fs'
        /\ fieldAt fields fs' p
           = Some (path, leaf, TSlice ti (TString ei), VSlice [VString ""])).
Proof.
  intros Hkeeps Hat Hskip Hcap Hcap' Henv.
  assert (forall w, processField "" (Field leaf) (TSlice ti (TString ei)) w
                    = (VSlice [VString ""], None)) as Hone.
  { intros w. rewrite processField_slice by exact Hcap.
    unfold converted. cbn [strings.Split map].
    rewrite processField_string by exact Hcap'. reflexivity. }
  split.
  - intros w. unfold envLeaf. rewrite Henv, Hone. reflexivity.
  - intros Herr.
    destruct (Process_fieldAt prefix configPaths pi si fields fs p path leaf _ f
                Hkeeps Hat Hskip eq_refl eq_refl Herr)
      as (fs2 & f2 & fs3 & _ & _ & _ & _ & _ & Hspec & Hfinal & _).
    exists fs3. split; [exact Hspec|]. rewrite Hfinal.
    unfold fromEnvironment. rewrite Henv, Hone. reflexivity.
Qed.

(** ** More facts about the walk *)

Section WalkMore.

Variable body : StructField -> type -> contents -> contents * list string * option error.

(** A walk whose body fails at no field does not fail. *)
Lemma walkFields_no_error fields s :
  Forall (fun ft => forall f, (body ft.1 ft.2 f).2 = None) fields ->
  (walkFields body fields s).2 = None.
Proof.
  intros Hall; revert s; induction Hall as [|[ftype t] fields Hhead _ IH];
    intros [|f s]; simpl; trivial.
  destruct (skipField ftype).
  - specialize (IH s). destruct (walkFields body fields s) as [[r keys] e]. exact IH.
  - specialize (Hhead f). simpl in Hhead.
    destruct (body ftype t f) as [[f' keys] e]. simpl in Hhead. subst e.
    specialize (IH s). destruct (walkFields body fields s) as [[r keys'] e]. exact IH.
Qed.

(** What holds of every key the body looks up holds of every key of the
    walk, and likewise for the error. *)
Lemma walkFields_keys_all (R : string -> Prop) fields s :
  Forall (fun ft => forall f k, In k (body ft.1 ft.2 f).1.2 -> R k) fields ->
  forall k, In k (walkFields body fields s).1.2 -> R k.
Proof.
  intros Hall; revert s; induction Hall as [|[ftype t] fields Hhead _ IH];
    intros [|f s] k; simpl; try contradiction.
  destruct (skipField ftype).
  - specialize (IH s k). destruct (walkFields body fields s) as [[r keys] e]. exact IH.
  - specialize (Hhead f k). simpl in Hhead.
    destruct (body ftype t f) as [[f' keys] [e|]]; simpl in *; [exact Hhead|].
    specialize (IH s k). destruct (walkFields body fields s) as [[r keys'] e].
    simpl in *. intros Hin. apply in_app_or in Hin as [Hin|Hin]; auto.
Qed.

(** Where a walk fails: at a field that is not skipped, with the error of
    the body there; that field holds what the body left in it, the
    fields after it hold what they held, and the keys of the walk end
    with those of the body at that field. *)
Lemma walkFields_stops fields s e :
  (walkFields body fields s).2 = Some e ->
  exists i ftype t f before,
    fields !! i = Some (ftype, t) /\ s !! i = Some f
    /\ skipField ftype = false
    /\ (body ftype t f).2 = Some e
    /\ (walkFields body fields s).1.1 !! i = Some (body ftype t f).1.1
    /\ (forall j, (i < j)%nat -> (walkFields body fields s).1.1 !! j = s !! j)
    /\ (walkFields body fields s).1.2 = (before ++ (body ftype t f).1.2)%list.
Proof.
  revert s; induction fields as [|[ftype t] fields IH]; intros [|f s]; simpl;
    try discriminate.
  destruct (skipField ftype) eqn:Hskip.
  - specialize (IH s). destruct (walkFields body fields s) as [[r keys] e0].
    simpl in *. intros He. destruct (IH He) as (i & ft & t' & f' & before & H).
    exists (S i), ft, t', f', before. simpl.
    destruct H as (? & ? & ? & ? & ? & Hafter & ?). repeat split; trivial.
    intros [|j] Hj; [lia|]. simpl. apply Hafter. lia.
  - destruct (body ftype t f) as [[f' keys] [e0|]] eqn:Hbody; simpl.
    + intros [= ->]. exists 0%nat, ftype, t, f, []. rewrite Hbody. simpl.
      repeat split; trivial. intros [|j] Hj; [lia|]. reflexivity.
    + specialize (IH s). destruct (walkFields body fields s) as [[r keys'] e0].
      simpl in *. intros He. destruct (IH He) as (i & ft & t' & f'' & before & H).
      exists (S i), ft, t', f'', (keys ++ before)%list. simpl.
      destruct H as (? & ? & ? & ? & ? & Hafter & ->). repeat split; trivial.
      * intros [|j] Hj; [lia|]. simpl. apply Hafter. lia.
      * rewrite app_assoc. reflexivity.
Qed.

(** Two bodies that agree on the fields walk alike. *)
Lemma walkFields_ext body' fields s :
  Forall (fun ft => forall f, body ft.1 ft.2 f = body' ft.1 ft.2 f) fields ->
  walkFields body fields s = walkFields body' fields s.
Proof.
  intros Hall; revert s; induction Hall as [|[ftype t] fields Hhead _ IH];
    intros [|f s]; simpl; trivial.
  simpl in Hhead. rewrite (Hhead f), IH. reflexivity.
Qed.

End WalkMore.

(** ** More properties *)

(** X1.  Reading two lists of paths one after the other is reading their
    concatenation: the files of the second list are merged into what the
    first list left, so a later file overrides an earlier one. *)
Theorem X1_processJson_app configPaths1 configPaths2 t s :
  processJson (configPaths1 ++ configPaths2) t s
  = ((processJson configPaths2 t (processJson configPaths1 t s).1.1).1.1,
     (configPaths1 ++ configPaths2)%list, None).
Proof.
  revert s; induction configPaths1 as [|path rest IH]; intros s.
  - simpl.
    pose proof (processJson_err configPaths2 t s) as He.
    pose proof (processJson_reads configPaths2 t s) as Hr.
    destruct (processJson configPaths2 t s) as [[s' rd] e]. simpl in *. congruence.
  - change ((path :: rest) ++ configPaths2)%list
      with (path :: (rest ++ configPaths2))%list.
    rewrite !processJson_cons. cbn zeta. cbn [fst]. rewrite IH. reflexivity.
Qed.

(** X2.  When none of the paths can be read the file pass leaves the
    struct as it was, whatever the JSON decoder would do, and it has
    still tried every path. *)
Theorem X2_processJson_unreadable configPaths t s :
  Forall (fun path => (ReadFile path).2 <> None) configPaths ->
  processJson configPaths t s = (s, configPaths, None).
Proof.
  intros Hall; revert s; induction Hall as [|path rest Hpath _ IH]; intros s.
  - reflexivity.
  - rewrite processJson_cons. cbn zeta.
    destruct (ReadFile path) as [jsonBytes [e|]]; [|now contradict Hpath].
    rewrite IH. reflexivity.
Qed.

(** *** The environment pass, whatever the struct *)

Lemma processEnvironmentField_unset :
  (forall key, lookupEnv key = None) ->
  forall t prefix ftype f, (processEnvironmentField prefix ftype t f).2 = None.
Proof.
  intros Hnone t. induction t as [t Hp Hs|pi elem IH|si fields IH] using type_walk_ind;
    intros prefix ftype f.
  - rewrite processEnvironmentField_leaf by assumption.
    unfold envLeaf. rewrite Hnone. reflexivity.
  - simpl. destruct f as [| | | | | |[v|]| |]; try reflexivity.
    + specialize (IH prefix ftype v).
      destruct (processEnvironmentField prefix ftype elem v) as [[v' keys] e]. exact IH.
    + destruct (isStruct elem); simpl.
      * specialize (IH prefix ftype (zero elem)).
        destruct (processEnvironmentField prefix ftype elem (zero elem)) as [[v' keys] e].
        exact IH.
      * unfold envLeaf. rewrite Hnone. reflexivity.
  - simpl. destruct (noCapability (Field ftype) (TStruct si fields)).
    + destruct f; try reflexivity.
      match goal with |- context [walkFields ?b fields ?s] =>
        pose proof (walkFields_no_error b fields s) as Hw;
        destruct (walkFields b fields s) as [[s' keys] e] end.
      apply Hw. eapply Forall_impl; [exact IH|]. intros [sf t'] H f'. apply H.
    + unfold envLeaf. rewrite Hnone. reflexivity.
Qed.

(** X3.  With nothing in the environment the environment pass cannot
    fail, and it leaves every field that is neither a pointer nor a
    struct, at any depth, with the contents it had. *)
Theorem X3_empty_environment prefix fields fs :
  (forall key, lookupEnv key = None) ->
  exists fs',
    processEnvironmentValues prefix fields (VStruct fs)
    = (VStruct fs', (processEnvironmentValues prefix fields (VStruct fs)).1.2, None)
    /\ forall p path leaf t f,
        fieldAt fields fs p = Some (path, leaf, t, f) ->
        isPtr t = false -> isStruct t = false ->
        fieldAt fields fs' p = Some (path, leaf, t, f).
Proof.
  intros Hnone. rewrite processEnvironmentValues_walk. cbn [fst snd].
  set (w := walkFields (processEnvironmentField prefix) fields fs).
  assert (w.2 = None) as Herr.
  { apply walkFields_no_error. apply Forall_forall. intros [sf t] _ f.
    apply processEnvironmentField_unset. exact Hnone. }
  exists w.1.1. split; [rewrite Herr; reflexivity|].
  intros p path leaf t f Hat Hptr Hstruct.
  destruct (skipField leaf) eqn:Hskip.
  - apply env_fieldAt_skipped; assumption.
  - destruct (env_fieldAt_visited p prefix fields fs path leaf t f
                Hat Hskip Hptr Hstruct Herr) as (H & _ & _).
    rewrite (proj1 (envLeaf_fromEnvironment _ leaf t f)) in H.
    unfold fromEnvironment in H. rewrite Hnone in H. exact H.
Qed.

Lemma envLeaf_error key ftype t f e :
  (envLeaf key ftype t f).2 = Some e ->
  isParseError e = true /\ KeyName e = key
  /\ lookupEnv key = Some (Value e)
  /\ last (envLeaf key ftype t f).1.2 = Some key.
Proof.
  unfold envLeaf. destruct (lookupEnv key) as [value|]; [|discriminate].
  destruct (processField value (Field ftype) t f) as [f' [e'|]]; [|discriminate].
  intros [= <-]. auto.
Qed.

Lemma processEnvironmentField_error :
  forall t prefix ftype f e,
    (processEnvironmentField prefix ftype t f).2 = Some e ->
    isParseError e = true
    /\ lookupEnv (KeyName e) = Some (Value e)
    /\ last (processEnvironmentField prefix ftype t f).1.2 = Some (KeyName e).
Proof.
  assert (forall key ftype t f e,
             (envLeaf key ftype t f).2 = Some e ->
             isParseError e = true
             /\ lookupEnv (KeyName e) = Some (Value e)
             /\ last (envLeaf key ftype t f).1.2 = Some (KeyName e)) as Hleaf.
  { intros key ftype t f e He.
    destruct (envLeaf_error key ftype t f e He) as (H1 & <- & H3 & H4). auto. }
  intros t. induction t as [t Hp Hs|pi elem IH|si fields IH] using type_walk_ind;
    intros prefix ftype f e.
  - rewrite processEnvironmentField_leaf by assumption. apply Hleaf.
  - simpl. destruct f as [| | | | | |[v|]| |]; try discriminate.
    + specialize (IH prefix ftype v e).
      destruct (processEnvironmentField prefix ftype elem v) as [[v' keys] e']. exact IH.
    + destruct (isStruct elem); simpl.
      * specialize (IH prefix ftype (zero elem) e).
        destruct (processEnvironmentField prefix ftype elem (zero elem)) as [[v' keys] e'].
        exact IH.
      * apply Hleaf.
  - simpl. destruct (noCapability (Field ftype) (TStruct si fields)); [|apply Hleaf].
    destruct f; try discriminate.
    match goal with |- context [walkFields ?b fields ?s] =>
      pose proof (walkFields_stops b fields s e) as Hw;
      destruct (walkFields b fields s) as [[s' keys] e'] end.
    cbn [fst snd] in *. intros He.
    destruct (Hw He) as (i & sf & t' & f' & before & Hi & _ & _ & Hb & _ & _ & ->).
    rewrite Forall_forall in IH.
    assert ((sf, t') ∈ fields) as Hin.
    { eapply list_elem_of_lookup_2. exact Hi. }
    destruct (IH (sf, t') Hin _ sf f' e Hb) as (H1 & H2 & H3).
    cbn [snd] in H3. repeat split; trivial. rewrite last_app, H3. reflexivity.
Qed.

Lemma processEnvironmentValues_error prefix fields s e :
  (processEnvironmentValues prefix fields s).2 = Some e ->
  isParseError e = true
  /\ lookupEnv (KeyName e) = Some (Value e)
  /\ last (processEnvironmentValues prefix fields s).1.2 = Some (KeyName e).
Proof.
  destruct s as [| | | | | | |fs|]; try discriminate.
  rewrite processEnvironmentValues_walk. cbn [fst snd]. intros He.
  destruct (walkFields_stops _ fields fs e He)
    as (i & sf & t & f & before & _ & _ & _ & Hb & _ & _ & ->).
  destruct (processEnvironmentField_error t prefix sf f e Hb) as (H1 & H2 & H3).
  repeat split; trivial. rewrite last_app, H3. reflexivity.
Qed.

(** X4.  An error of the environment pass is always a [*ParseError]; its
    key is the last key the pass looked up, and its value is the string
    the environment holds under that key. *)
Theorem X4_environment_error prefix fields s e :
  (processEnvironmentValues prefix fields s).2 = Some e ->
  isParseError e = true
  /\ lookupEnv (KeyName e) = Some (Value e)
  /\ last (processEnvironmentValues prefix fields s).1.2 = Some (KeyName e).
Proof.
  destruct s as [| | | | | | |fs|]; try discriminate.
  rewrite processEnvironmentValues_walk. cbn [fst snd]. intros He.
  destruct (walkFields_stops _ fields fs e He)
    as (i & sf & t & f & before & _ & _ & _ & Hb & _ & _ & ->).
  destruct (processEnvironmentField_error t prefix sf f e Hb) as (H1 & H2 & H3).
  repeat split; trivial. rewrite last_app, H3. reflexivity.
Qed.

(** *** The default pass, whatever the struct *)

Lemma defaultLeaf_error ftype t f e :
  (defaultLeaf ftype t f).2 = Some e ->
  isParseError e = true /\ KeyName e = ""
  /\ Tag_Lookup (Tag ftype) "default" = Some (Value e).
Proof.
  unfold defaultLeaf. destruct (Tag_Lookup (Tag ftype) "default") as [value|];
    [|discriminate].
  destruct (processField value (Field ftype) t f) as [f' [e'|]]; [|discriminate].
  intros [= <-]. auto.
Qed.

Lemma tagged_struct key si fields sf t :
  tagged key (TStruct si fields) = false -> (sf, t) ∈ fields ->
  Tag_Lookup (Tag sf) key = None /\ tagged key t = false.
Proof.
  simpl. intros Hnone Hin. apply list_elem_of_In in Hin.
  destruct (Tag_Lookup (Tag sf) key) eqn:Htag, (tagged key t) eqn:Ht; auto;
    exfalso; apply not_true_iff_false in Hnone; apply Hnone;
    apply existsb_exists; exists (sf, t); rewrite Htag, Ht; auto.
Qed.

Lemma processDefaultField_error :
  forall t ftype f e,
    (processDefaultField ftype t f).2 = Some e ->
    isParseError e = true /\ KeyName e = ""
    /\ (isNil (Tag_Lookup (Tag ftype) "default") = false
        \/ tagged "default" t = true).
Proof.
  assert (forall ftype t f e,
             (defaultLeaf ftype t f).2 = Some e ->
             isParseError e = true /\ KeyName e = ""
             /\ (isNil (Tag_Lookup (Tag ftype) "default") = false
                 \/ tagged "default" t = true)) as Hleaf.
  { intros ftype t f e He.
    destruct (defaultLeaf_error ftype t f e He) as (H1 & H2 & H3).
    rewrite H3. auto. }
  intros t. induction t as [t Hp Hs|pi elem IH|si fields IH] using type_walk_ind;
    intros ftype f e.
  - rewrite processDefaultField_leaf by assumption. apply Hleaf.
  - simpl. destruct f as [| | | | | |[v|]| |]; try discriminate.
    + specialize (IH ftype v e).
      destruct (processDefaultField ftype elem v) as [[v' keys] e']. exact IH.
    + destruct (isStruct elem) eqn:Hs; simpl.
      * specialize (IH ftype (zero elem) e).
        destruct (processDefaultField ftype elem (zero elem)) as [[v' keys] e'].
        exact IH.
      * intros He. destruct (Hleaf ftype (TPtr pi elem) (VPtr None) e He)
          as (H1 & H2 & [H3|H3]); auto.
  - cbn [processDefaultField]. destruct f; try discriminate.
    pose proof (walkFields_stops processDefaultField fields fields0 e) as Hw.
    destruct (walkFields processDefaultField fields fields0) as [[s' keys] e'].
    cbn [fst snd] in *. intros He.
    destruct (Hw He) as (i & sf & t' & f' & before & Hi & _ & _ & Hb & _).
    rewrite Forall_forall in IH.
    assert ((sf, t') ∈ fields) as Hin by (eapply list_elem_of_lookup_2; exact Hi).
    destruct (IH (sf, t') Hin sf f' e Hb) as (H1 & H2 & H3).
    repeat split; trivial. right.
    destruct (tagged "default" (TStruct si fields)) eqn:Htag; [reflexivity|].
    destruct (tagged_struct _ _ _ _ _ Htag Hin) as [Ha Hb'].
    cbn [snd] in H3. rewrite Ha, Hb' in H3. destruct H3; discriminate.
Qed.

Lemma processDefaultValues_error fields s e :
  (processDefaultValues fields s).2 = Some e ->
  isParseError e = true /\ KeyName e = "".
Proof.
  destruct s as [| | | | | | |fs|]; try discriminate.
  rewrite processDefaultValues_walk. cbn [fst snd]. intros He.
  destruct (walkFields_stops _ fields fs e He)
    as (i & sf & t & f & before & _ & _ & _ & Hb & _).
  destruct (processDefaultField_error t sf f e Hb) as (H1 & H2 & _). auto.
Qed.

(** X5.  An error of the default pass is always a [*ParseError] with an
    empty key, and it takes a [default] tag somewhere in the struct for
    the pass to fail: on a struct without such tags it returns nil. *)
Theorem X5_default_error si fields s e :
  (processDefaultValues fields s).2 = Some e ->
  isParseError e = true /\ KeyName e = ""
  /\ tagged "default" (TStruct si fields) = true.
Proof.
  destruct s as [| | | | | | |fs|]; try discriminate.
  rewrite processDefaultValues_walk. cbn [fst snd]. intros He.
  destruct (walkFields_stops _ fields fs e He)
    as (i & sf & t & f & before & Hi & _ & _ & Hb & _).
  destruct (processDefaultField_error t sf f e Hb) as (H1 & H2 & H3).
  repeat split; trivial.
  assert ((sf, t) ∈ fields) as Hin by (eapply list_elem_of_lookup_2; exact Hi).
  destruct (tagged "default" (TStruct si fields)) eqn:Htag; [reflexivity|].
  destruct (tagged_struct _ _ _ _ _ Htag Hin) as [Ha Hb'].
  rewrite Ha, Hb' in H3. destruct H3; discriminate.
Qed.

(** *** The orchestrator and its wrapper *)

(** [Process] on a pointer to a struct type, pass by pass, whatever the
    pointer points to. *)
Lemma Process_pointer prefix configPaths pi si fields s0 :
  Process prefix configPaths (IVal (TPtr pi (TStruct si fields)) (VPtr (Some s0)))
  = let back s' := IVal (TPtr pi (TStruct si fields)) (VPtr (Some s')) in
    let d := processDefaultValues fields s0 in
    match d.2 with
    | Some e => {| spec' := back d.1; reads := []; lookups := []; err := Some e |}
    | None =>
        let j := (processJson configPaths (TStruct si fields) d.1).1.1 in
        let w := processEnvironmentValues prefix fields j in
        {| spec' := back w.1.1; reads := configPaths; lookups := w.1.2; err := w.2 |}
    end.
Proof.
  unfold Process. cbn [ValueOf Kind_of Elem].
  destruct (processDefaultValues fields s0) as [s1 [e1|]]; [reflexivity|].
  cbn [fst snd].
  pose proof (processJson_err configPaths (TStruct si fields) s1) as He.
  pose proof (processJson_reads configPaths (TStruct si fields) s1) as Hr.
  destruct (processJson configPaths (TStruct si fields) s1) as [[s2 rd] e2].
  simpl in He, Hr. subst. cbn [fst snd].
  destruct (processEnvironmentValues prefix fields s2) as [[s3 keys] e3]. reflexivity.
Qed.

Lemma pointsToStruct_inv spec :
  pointsToStruct spec = true ->
  exists pi si fields s0, spec = IVal (TPtr pi (TStruct si fields)) (VPtr (Some s0)).
Proof.
  destruct spec as [|t v]; [discriminate|].
  destruct t as [| | | | | |pi elem| |]; try discriminate.
  destruct elem; try discriminate.
  destruct v as [| | | | | |[s0|]| |]; try discriminate.
  eauto.
Qed.

Lemma Process_invalid prefix configPaths spec :
  pointsToStruct spec = false ->
  Process prefix configPaths spec
  = {| spec' := spec; reads := []; lookups := [];
       err := Some ErrInvalidSpecification |}.
Proof.
  unfold pointsToStruct, Process. intros Hinvalid.
  destruct spec as [|t v]; [reflexivity|].
  destruct t as [| | | | | |pi elem| |]; try reflexivity.
  destruct v as [| | | | | |[s|]| |]; try reflexivity.
  destruct elem; try reflexivity. discriminate.
Qed.

(** X6.  [MustProcess] panics with the error of [Process] and with
    nothing else.  Given anything but a non-nil pointer to a struct the
    panic is [ErrInvalidSpecification] and the argument is untouched.
    Given such a pointer it is a [*ParseError] of one of two kinds: from
    the default pass, with an empty key, before any file is read or any
    key looked up; or from the environment pass, after every file was
    tried, for the last key looked up and the string the environment
    holds there.  No panic comes from a file. *)
Theorem X6_MustProcess_panics prefix configPaths spec e o :
  MustProcess prefix configPaths spec = Panics e o ->
  o = Process prefix configPaths spec /\ err o = Some e
  /\ ((pointsToStruct spec = false /\ e = ErrInvalidSpecification /\ spec' o = spec
       /\ reads o = [] /\ lookups o = [])
      \/ (pointsToStruct spec = true /\ isParseError e = true
          /\ ((KeyName e = "" /\ reads o = [] /\ lookups o = [])
              \/ (lookupEnv (KeyName e) = Some (Value e)
                  /\ reads o = configPaths
                  /\ last (lookups o) = Some (KeyName e))))).
Proof.
  unfold MustProcess.
  destruct (err (Process prefix configPaths spec)) as [e'|] eqn:Herr; [|discriminate].
  intros [= <- <-]. split; [reflexivity|]. split; [exact Herr|].
  destruct (pointsToStruct spec) eqn:Hvalid.
  - right. split; [reflexivity|].
    destruct (pointsToStruct_inv spec Hvalid) as (pi & si & fields & s0 & ->).
    rewrite Process_pointer in Herr |- *. cbn zeta in Herr |- *.
    destruct (processDefaultValues fields s0).2 as [e1|] eqn:Hd.
    + cbn [err] in Herr. injection Herr as <-.
      destruct (processDefaultValues_error fields s0 e1 Hd) as (H1 & H2). auto.
    + cbn [err reads lookups] in Herr |- *.
      destruct (processEnvironmentValues_error prefix fields _ e' Herr) as (H1 & H2 & H3).
      auto.
  - left. split; [reflexivity|].
    rewrite (Process_invalid prefix configPaths spec Hvalid) in Herr |- *.
    cbn [err spec' reads lookups] in *. injection Herr as <-. auto.
Qed.




(** *** The keys *)

Lemma namespace_envKey prefix ftype :
  exists rest, envKey prefix ftype = (namespace prefix ++ rest)%string.
Proof.
  unfold envKey, namespace. destruct (String.eqb prefix "").
  - eexists. reflexivity.
  - rewrite ToUpper_app. eexists. rewrite append_assoc.
    rewrite ToUpper_app. reflexivity.
Qed.

Lemma namespace_inner prefix ftype rest :
  exists rest',
    (namespace (envKey prefix ftype) ++ rest)%string
    = (namespace prefix ++ rest')%string.
Proof.
  destruct (namespace_envKey prefix ftype) as [r Hr].
  unfold namespace at 1. destruct (String.eqb (envKey prefix ftype) "") eqn:He.
  - apply String.eqb_eq in He. unfold envKey in He. apply ToUpper_empty in He.
    unfold namespace. destruct (String.eqb prefix "") eqn:Hp; [eauto|].
    apply append_empty in He. apply String.eqb_neq in Hp. contradiction.
  - unfold envKey at 1. rewrite ToUpper_idem. fold (envKey prefix ftype).
    rewrite Hr, !append_assoc. eauto.
Qed.

Lemma processEnvironmentField_keys :
  forall t prefix ftype f key,
    In key (processEnvironmentField prefix ftype t f).1.2 ->
    strings.ToUpper key = key
    /\ exists rest, key = (namespace prefix ++ rest)%string.
Proof.
  assert (forall prefix ftype t f key,
             In key (envLeaf (envKey prefix ftype) ftype t f).1.2 ->
             strings.ToUpper key = key
             /\ exists rest, key = (namespace prefix ++ rest)%string) as Hleaf.
  { intros prefix ftype t f key.
    rewrite (proj2 (envLeaf_fromEnvironment _ ftype t f)).
    intros [<-|[]]. split; [apply ToUpper_idem|apply namespace_envKey]. }
  intros t. induction t as [t Hp Hs|pi elem IH|si fields IH] using type_walk_ind;
    intros prefix ftype f key.
  - rewrite processEnvironmentField_leaf by assumption. apply Hleaf.
  - simpl. destruct f as [| | | | | |[v|]| |]; try contradiction.
    + specialize (IH prefix ftype v key).
      destruct (processEnvironmentField prefix ftype elem v) as [[v' keys] e]. exact IH.
    + destruct (isStruct elem); simpl.
      * specialize (IH prefix ftype (zero elem) key).
        destruct (processEnvironmentField prefix ftype elem (zero elem)) as [[v' keys] e].
        exact IH.
      * apply Hleaf.
  - simpl. destruct (noCapability (Field ftype) (TStruct si fields)); [|apply Hleaf].
    destruct f; try contradiction.
    match goal with |- context [walkFields ?b fields ?s] =>
      pose proof (walkFields_keys_all b
                    (fun key => strings.ToUpper key = key
                                /\ exists rest, key = (namespace prefix ++ rest)%string)
                    fields s) as Hw;
      destruct (walkFields b fields s) as [[s' keys] e] end.
    cbn [fst snd] in *. apply Hw.
    eapply Forall_impl; [exact IH|]. intros [sf t'] H f' k Hin. cbn [fst snd] in *.
    destruct (H _ sf f' k Hin) as [Hup [rest ->]]. split; [exact Hup|].
    destruct (Anonymous ftype); [eauto|]. apply namespace_inner.
Qed.

(** X8.  [Process] asks the environment only for upper-case keys, and
    under a prefix that is not empty only for keys that begin with the
    upper-cased prefix and an underscore. *)
Theorem X8_keys_in_namespace prefix configPaths spec key :
  In key (lookups (Process prefix configPaths spec)) ->
  strings.ToUpper key = key
  /\ exists rest, key = (namespace prefix ++ rest)%string.
Proof.
  destruct (pointsToStruct spec) eqn:Hvalid.
  - destruct (pointsToStruct_inv spec Hvalid) as (pi & si & fields & s0 & ->).
    rewrite Process_pointer. cbn zeta.
    destruct (processDefaultValues fields s0).2; cbn [lookups]; [contradiction|].
    destruct (processJson configPaths (TStruct si fields)
                          (processDefaultValues fields s0).1).1.1
      as [| | | | | | |fs|]; try contradiction.
    rewrite processEnvironmentValues_walk. cbn [fst snd].
    apply (walkFields_keys_all _
             (fun key => strings.ToUpper key = key
                         /\ exists rest, key = (namespace prefix ++ rest)%string)).
    apply Forall_forall. intros [sf t] _ f k. apply processEnvironmentField_keys.
  - rewrite (Process_invalid prefix configPaths spec Hvalid). contradiction.
Qed.

Lemma envKey_case prefix1 prefix2 ftype :
  strings.ToUpper prefix1 = strings.ToUpper prefix2 ->
  envKey prefix1 ftype = envKey prefix2 ftype.
Proof.
  intros Heq. unfold envKey.
  destruct (String.eqb prefix1 "") eqn:H1, (String.eqb prefix2 "") eqn:H2.
  - reflexivity.
  - apply String.eqb_eq in H1. subst. symmetry in Heq. apply ToUpper_empty in Heq.
    subst. discriminate.
  - apply String.eqb_eq in H2. subst. apply ToUpper_empty in Heq. subst. discriminate.
  - rewrite !ToUpper_app, Heq. reflexivity.
Qed.

Lemma processEnvironmentField_case :
  forall t prefix1 prefix2 ftype f,
    strings.ToUpper prefix1 = strings.ToUpper prefix2 ->
    processEnvironmentField prefix1 ftype t f = processEnvironmentField prefix2 ftype t f.
Proof.
  intros t. induction t as [t Hp Hs|pi elem IH|si fields IH] using type_walk_ind;
    intros prefix1 prefix2 ftype f Heq.
  - rewrite !processEnvironmentField_leaf by assumption.
    rewrite (envKey_case _ _ ftype Heq). reflexivity.
  - simpl. rewrite (envKey_case _ _ ftype Heq).
    destruct f as [| | | | | |[v|]| |]; try reflexivity.
    + rewrite (IH prefix1 prefix2 ftype v Heq). reflexivity.
    + rewrite (IH prefix1 prefix2 ftype (zero elem) Heq). reflexivity.
  - simpl. rewrite (envKey_case _ _ ftype Heq).
    destruct (noCapability (Field ftype) (TStruct si fields)); [|reflexivity].
    destruct f; try reflexivity.
    match goal with |- context [walkFields (processEnvironmentField ?p1) fields ?s] =>
      rewrite (walkFields_ext (processEnvironmentField p1)
                 (processEnvironmentField (if Anonymous ftype then prefix2
                                           else envKey prefix2 ftype)) fields s) end;
      [reflexivity|].
    eapply Forall_impl; [exact IH|]. intros [sf t'] H f'. cbn [fst snd] in *.
    apply H. destruct (Anonymous ftype); [exact Heq|reflexivity].
Qed.

(** X9.  The case of the prefix does not matter: under two prefixes that
    differ only in the case of their letters [Process] does the same. *)
Theorem X9_prefix_case prefix1 prefix2 configPaths spec :
  strings.ToUpper prefix1 = strings.ToUpper prefix2 ->
  Process prefix1 configPaths spec = Process prefix2 configPaths spec.
Proof.
  intros Heq. destruct (pointsToStruct spec) eqn:Hvalid.
  - destruct (pointsToStruct_inv spec Hvalid) as (pi & si & fields & s0 & ->).
    rewrite !Process_pointer. cbn zeta.
    destruct (processDefaultValues fields s0).2; [reflexivity|].
    assert (forall s, processEnvironmentValues prefix1 fields s
                      = processEnvironmentValues prefix2 fields s) as Hsame.
    { intros [| | | | | | |fs|]; try reflexivity.
      rewrite !processEnvironmentValues_walk.
      rewrite (walkFields_ext (processEnvironmentField prefix1)
                 (processEnvironmentField prefix2) fields fs); [reflexivity|].
      apply Forall_forall. intros [sf t] _ f.
      apply processEnvironmentField_case. exact Heq. }
    rewrite Hsame. reflexivity.
  - rewrite !(Process_invalid _ configPaths spec Hvalid). reflexivity.
Qed.

(** *** The coercion engine *)

(** X10.  Without a capability the engine writes to a field only when it
    converts: when the conversion fails, or the kind is one the [switch]
    has no case for (then without an error), a field that is not a
    pointer holds what it held, and a pointer field points at what it
    pointed at, or at a fresh zero value if it was nil: the allocation
    comes before the conversion and stays. *)
Theorem X10_unconverted value fl t f :
  noCapability fl t = true ->
  ((processField value fl t f).2 <> None \/ builtinKind (target t) = false) ->
  (processField value fl t f).1 = unconverted t f
  /\ (builtinKind (target t) = false -> (processField value fl t f).2 = None).
Proof.
  intros Hcap. apply noCapability_nil in Hcap as (Hd & Hs & Ht).
  destruct t as [i|i k|i k|i k|i|i elem|i elem|i fields|i];
    cbn [processField target unconverted]; rewrite Hd, Hs, Ht; cbn [builtinKind].
  all: try (destruct elem as [j|j k|j k|j k|j|j elem'|j elem'|j fields|j];
            cbn [builtinKind]).
  all: repeat match goal with
       | |- context [let '(_, _) := ?x in _] => destruct x as [? [?|]]
       | |- context [match ?x with inl _ => _ | inr _ => _ end] => destruct x
       end; cbn [fst snd].
  all: intros [H|H]; try discriminate; try (now contradict H).
  all: split; [reflexivity|intros; discriminate || reflexivity].
Qed.

Lemma Split_length s : length (strings.Split s ",") = S (commas s).
Proof.
  induction s as [|c s IH]; [reflexivity|]. simpl.
  destruct (Ascii.eqb c ","); simpl; [now rewrite IH|].
  destruct (strings.Split s ","); simpl in *; [discriminate|exact IH].
Qed.

Lemma Join_Split s c :
  strings.Join (strings.Split s c) (String c EmptyString) = s.
Proof.
  induction s as [|x s IH]; [reflexivity|]. simpl.
  destruct (Ascii.eqb x c) eqn:Hx.
  - apply Ascii.eqb_eq in Hx. subst x.
    destruct (strings.Split s c) as [|piece pieces] eqn:Hs.
    + destruct s; simpl in Hs; [discriminate|].
      destruct (Ascii.eqb a c); [discriminate|].
      destruct (strings.Split s c); discriminate.
    + rewrite <- IH. reflexivity.
  - destruct (strings.Split s c) as [|piece pieces] eqn:Hs.
    + destruct s; simpl in Hs; [discriminate|].
      destruct (Ascii.eqb a c); [discriminate|].
      destruct (strings.Split s c); discriminate.
    + rewrite <- IH. destruct pieces; reflexivity.
Qed.

(** X11.  A slice the engine has converted a string into has one element
    more than the string has commas: it is never empty, and a trailing
    comma makes a last element. *)
Theorem X11_slice_length value fl ti elem field :
  noCapability fl (TSlice ti elem) = true ->
  (processField value fl (TSlice ti elem) field).2 = None ->
  exists sl,
    (processField value fl (TSlice ti elem) field).1 = VSlice sl
    /\ length sl = S (commas value).
Proof.
  intros Hcap. rewrite processField_slice by exact Hcap. unfold sliceResult.
  destruct (find _ _) as [[v [e|]]|]; cbn [fst snd]; try discriminate; intros _.
  - eexists. split; [reflexivity|].
    unfold converted. rewrite !length_map. apply Split_length.
  - eexists. split; [reflexivity|].
    unfold converted. rewrite !length_map. apply Split_length.
Qed.

(** X12.  A string always converts into a []string, whose elements
    joined by commas are the string again. *)
Theorem X12_strings_round_trip value fl ti ei field :
  noCapability fl (TSlice ti (TString ei)) = true ->
  noCapability Index (TString ei) = true ->
  exists pieces,
    processField value fl (TSlice ti (TString ei)) field
    = (VSlice (map VString pieces), None)
    /\ strings.Join pieces "," = value.
Proof.
  intros Hcap Helem. exists (strings.Split value ","). split; [|apply Join_Split].
  rewrite processField_slice by exact Hcap. unfold sliceResult, converted.
  rewrite (map_ext _ (fun val => (VString val, @None error)))
    by (intros val; apply processField_string; exact Helem).
  induction (strings.Split value ",") as [|piece pieces IH]; [reflexivity|].
  cbn [map find snd isNil negb fst].
  destruct (find _ _) as [[v [e|]]|]; try discriminate;
    injection IH as IH; now rewrite IH.
Qed.

(** The digit loop of [strconv.ParseUint] keeps the number within
    [maxVal]. *)
Lemma digits_range fn s0 base base0 maxVal s :
  forall n u n' u',
    0 <= n <= maxVal ->
    strconv.digits fn s0 base base0 maxVal s n u = inl (n', u') ->
    0 <= n' <= maxVal.
Proof.
  induction s as [|c s IH]; intros n u n' u' Hn; simpl.
  - intros [= <- <-]. exact Hn.
  - destruct (Ascii.eqb c "_" && base0); [apply IH; exact Hn|].
    destruct (if strconv.isDigit c then _ else _) as [d|]; [|discriminate].
    destruct (base <=? d); [discriminate|].
    destruct (strconv.maxUint64 / base + 1 <=? n); [discriminate|].
    destruct (_ || _) eqn:Hcheck; [discriminate|].
    apply IH. apply orb_false_iff in Hcheck as [_ Hmax].
    apply Z.ltb_ge in Hmax. split; [|exact Hmax].
    apply Z.mod_pos_bound. reflexivity.
Qed.

Lemma digits_failure fn s0 base base0 maxVal s :
  forall n u v e,
    strconv.digits fn s0 base base0 maxVal s n u = inr (v, e) ->
    v = 0 \/ v = maxVal.
Proof.
  induction s as [|c s IH]; intros n u v e; simpl; [discriminate|].
  destruct (Ascii.eqb c "_" && base0); [apply IH|].
  destruct (if strconv.isDigit c then _ else _) as [d|]; [|intros [= <- <-]; auto].
  destruct (base <=? d); [intros [= <- <-]; auto|].
  destruct (strconv.maxUint64 / base + 1 <=? n); [intros [= <- <-]; auto|].
  destruct (_ || _); [intros [= <- <-]; auto|apply IH].
Qed.

Lemma parseUint_range fn s0 s bitSize :
  0 <= bitSize ->
  0 <= (strconv.parseUint fn s0 s bitSize).1 <= 2 ^ bitSize - 1.
Proof.
  intros Hbits. assert (0 <= 2 ^ bitSize - 1) as Hmax.
  { pose proof (Z.pow_pos_nonneg 2 bitSize). lia. }
  unfold strconv.parseUint. destruct s as [|c0 rest0]; [simpl; lia|].
  destruct (if Ascii.eqb c0 "0" then _ else _) as [base body]. cbn zeta.
  destruct (strconv.digits fn s0 base true (2 ^ bitSize - 1) body 0 false)
    as [[n u]|[v e]] eqn:Hdigits.
  - apply digits_range in Hdigits; [|lia].
    destruct (u && negb (strconv.underscoreOK s0)); simpl; lia.
  - apply digits_failure in Hdigits. simpl. lia.
Qed.

Lemma ParseInt_range s0 bitSize :
  0 < bitSize ->
  - 2 ^ (bitSize - 1) <= (strconv.ParseInt s0 bitSize).1 < 2 ^ (bitSize - 1).
Proof.
  intros Hbits.
  assert (0 < 2 ^ (bitSize - 1)) as Hpos by (apply Z.pow_pos_nonneg; lia).
  unfold strconv.ParseInt. destruct s0 as [|c rest]; [simpl; lia|].
  destruct (if Ascii.eqb c "+" then _ else _) as [neg s].
  pose proof (parseUint_range "ParseInt" (String c rest) s bitSize) as Hun.
  destruct (strconv.parseUint "ParseInt" (String c rest) s bitSize) as [un err].
  cbn [fst] in Hun.
  assert (- 2 ^ (bitSize - 1)
          <= (if negb neg && (2 ^ (bitSize - 1) <=? un)
              then (2 ^ (bitSize - 1) - 1,
                    Some (strconv.rangeError "ParseInt" (String c rest)))
              else if neg && (2 ^ (bitSize - 1) <? un)
                   then (- 2 ^ (bitSize - 1),
                         Some (strconv.rangeError "ParseInt" (String c rest)))
                   else (if neg then - un else un, None)).1
          < 2 ^ (bitSize - 1)) as Hcut.
  { destruct neg; simpl.
    - destruct (2 ^ (bitSize - 1) <? un) eqn:Hc; simpl; [lia|].
      apply Z.ltb_ge in Hc. lia.
    - destruct (2 ^ (bitSize - 1) <=? un) eqn:Hc; simpl; [lia|].
      apply Z.leb_gt in Hc. lia. }
  destruct err as [[| fn num [|] | | ]|]; cbn zeta; try exact Hcut.
  simpl. lia.
Qed.

(** X13.  A signed integer field that is not a [time.Duration] holds,
    after a conversion without error, a number in the range of its
    kind. *)
Theorem X13_int_in_range value fl i k field :
  noCapability fl (TInt i k) = true ->
  isDuration i k = false ->
  (processField value fl (TInt i k) field).2 = None ->
  exists n,
    (processField value fl (TInt i k) field).1 = VInt n
    /\ - 2 ^ (intBits k - 1) <= n < 2 ^ (intBits k - 1).
Proof.
  intros Hcap Hdur. apply noCapability_nil in Hcap as (Hd & Hs & Ht).
  cbn [processField]. rewrite Hd, Hs, Ht, Hdur.
  pose proof (ParseInt_range value (intBits k)) as Hrange.
  destruct (strconv.ParseInt value (intBits k)) as [val [e|]];
    cbn [fst snd] in *; [discriminate|].
  intros _. exists val. split; [reflexivity|].
  apply Hrange. destruct k; reflexivity.
Qed.

(** X14.  An unsigned integer field holds, after a conversion without
    error, a number in the range of its kind. *)
Theorem X14_uint_in_range value fl i k field :
  noCapability fl (TUint i k) = true ->
  (processField value fl (TUint i k) field).2 = None ->
  exists n,
    (processField value fl (TUint i k) field).1 = VUint n
    /\ 0 <= n < 2 ^ uintBits k.
Proof.
  intros Hcap. apply noCapability_nil in Hcap as (Hd & Hs & Ht).
  cbn [processField]. rewrite Hd, Hs, Ht.
  pose proof (parseUint_range "ParseUint" value value (uintBits k)) as Hrange.
  unfold strconv.ParseUint.
  destruct (strconv.parseUint "ParseUint" value value (uintBits k)) as [val [e|]];
    cbn [fst snd] in *; [discriminate|].
  intros _. exists val. split; [reflexivity|].
  assert (0 <= uintBits k) by (destruct k; simpl; lia). lia.
Qed.
(** *** What the passes leave alone *)

(** Whether or not a walk fails, the field at the end of a path holds
    after the default pass what it held or what the pass makes of it. *)
Lemma default_fieldAt_cases p :
  forall fields fs path leaf t f,
    fieldAt fields fs p = Some (path, leaf, t, f) ->
    isPtr t = false -> isStruct t = false ->
    fieldAt fields (walkFields processDefaultField fields fs).1.1 p
    = Some (path, leaf, t, f)
    \/ fieldAt fields (walkFields processDefaultField fields fs).1.1 p
       = Some (path, leaf, t, (defaultLeaf leaf t f).1.1).
Proof.
  induction p as [|i [|j p] IH]; intros fields fs path leaf t f Hat Hptr Hstruct.
  - discriminate.
  - rewrite fieldAt_top in Hat |- *.
    destruct (fields !! i) as [[sf ti]|] eqn:Hi; [|discriminate].
    destruct (fs !! i) as [fi|] eqn:Hf; [|discriminate].
    injection Hat as <- -> -> ->.
    destruct (walkFields_cases processDefaultField fields fs i leaf t f Hi Hf)
      as [->|[_ ->]]; [now left|right].
    rewrite processDefaultField_leaf by assumption. reflexivity.
  - pose proof Hat as Hat'. rewrite fieldAt_nested in Hat |- *.
    destruct (fields !! i) as [[sf ti]|] eqn:Hi; [|discriminate].
    destruct (fs !! i) as [fi|] eqn:Hf; [|discriminate].
    destruct (walkFields_cases processDefaultField fields fs i sf ti fi Hi Hf)
      as [->|[Hsk ->]]; [left; exact Hat|].
    destruct (resolveStruct ti fi) as [[[si inner] ifs]|] eqn:Hres; [|discriminate].
    destruct (walked sf && noCapability (Field sf) (TStruct si inner)) eqn:Hcond;
      [|discriminate].
    destruct (fieldAt inner ifs (j :: p)) as [[[[pa le] ty] fc]|] eqn:Hin; [|discriminate].
    injection Hat as <- <- <- <-.
    rewrite (processDefaultField_resolved sf ti fi si inner ifs Hres). cbn [fst snd].
    rewrite (resolveStruct_put ti fi si inner ifs _ Hres), Hcond.
    destruct (IH inner ifs pa le ty fc Hin Hptr Hstruct) as [-> | ->]; auto.
Qed.

Lemma env_fieldAt_cases p :
  forall prefix fields fs path leaf t f,
    fieldAt fields fs p = Some (path, leaf, t, f) ->
    isPtr t = false -> isStruct t = false ->
    let w := walkFields (processEnvironmentField prefix) fields fs in
    fieldAt fields w.1.1 p = Some (path, leaf, t, f)
    \/ fieldAt fields w.1.1 p
       = Some (path, leaf, t, fromEnvironment (specKey prefix path leaf) leaf t f).
Proof.
  induction p as [|i [|j p] IH];
    intros prefix fields fs path leaf t f Hat Hptr Hstruct w; subst w.
  - discriminate.
  - rewrite fieldAt_top in Hat |- *.
    destruct (fields !! i) as [[sf ti]|] eqn:Hi; [|discriminate].
    destruct (fs !! i) as [fi|] eqn:Hf; [|discriminate].
    injection Hat as <- -> -> ->.
    destruct (walkFields_cases (processEnvironmentField prefix) fields fs i leaf t f Hi Hf)
      as [->|[_ ->]]; [now left|right].
    rewrite processEnvironmentField_leaf, envKey_specKey by assumption.
    rewrite (proj1 (envLeaf_fromEnvironment _ leaf t f)). reflexivity.
  - pose proof Hat as Hat'. rewrite fieldAt_nested in Hat |- *.
    destruct (fields !! i) as [[sf ti]|] eqn:Hi; [|discriminate].
    destruct (fs !! i) as [fi|] eqn:Hf; [|discriminate].
    destruct (walkFields_cases (processEnvironmentField prefix) fields fs i sf ti fi Hi Hf)
      as [->|[Hsk ->]]; [left; exact Hat|].
    destruct (resolveStruct ti fi) as [[[si inner] ifs]|] eqn:Hres; [|discriminate].
    destruct (walked sf && noCapability (Field sf) (TStruct si inner)) eqn:Hcond;
      [|discriminate].
    destruct (fieldAt inner ifs (j :: p)) as [[[[pa le] ty] fc]|] eqn:Hin; [|discriminate].
    injection Hat as <- <- <- <-.
    pose proof Hcond as Hw. apply andb_true_iff in Hw as [Hw Hcap].
    apply walked_inv in Hw as [_ Hname].
    rewrite (processEnvironmentField_resolved prefix sf ti fi si inner ifs Hres Hcap).
    cbn [fst snd].
    rewrite (resolveStruct_put ti fi si inner ifs _ Hres), Hcond.
    destruct (IH (if Anonymous sf then prefix else envKey prefix sf)
                 inner ifs pa le ty fc Hin Hptr Hstruct) as [-> | ->]; auto.
    right. rewrite specKey_step by exact Hname. reflexivity.
Qed.

(** X15.  A field that is neither a pointer nor a struct, without
    [default] tag, whose key is not in the environment and for which no
    file has anything, holds after [Process] what it held before,
    whether or not [Process] fails. *)
Theorem X15_no_source_unchanged
        prefix configPaths pi si fields fs p path leaf t f :
  jsonSilent configPaths fields p ->
  fieldAt fields fs p = Some (path, leaf, t, f) ->
  isPtr t = false -> isStruct t = false ->
  Tag_Lookup (Tag leaf) "default" = None ->
  lookupEnv (specKey prefix path leaf) = None ->
  exists fs',
    spec' (Process prefix configPaths (structSpec pi si fields fs))
    = structSpec pi si fields fs'
    /\ fieldAt fields fs' p = Some (path, leaf, t, f).
Proof.
  intros Hsil Hat Hptr Hstruct Htag Henv. rewrite Process_struct. cbn zeta.
  set (d := walkFields processDefaultField fields fs).
  assert (fieldAt fields d.1.1 p = Some (path, leaf, t, f)) as Hd.
  { destruct (default_fieldAt_cases p fields fs path leaf t f Hat Hptr Hstruct)
      as [H|H]; [exact H|].
    fold d in H. rewrite H. unfold defaultLeaf. rewrite Htag. reflexivity. }
  destruct (d.2) as [e1|]; cbn [spec']; [eauto|].
  destruct (processJson_silent configPaths (TStruct si fields) fields p d.1.1 Hsil)
    as (fs2 & Hj & Heq).
  rewrite Hj, processEnvironmentValues_walk. cbn [fst snd].
  eexists. split; [reflexivity|]. rewrite Hd in Heq.
  destruct (env_fieldAt_cases p prefix fields fs2 path leaf t f Heq Hptr Hstruct)
    as [H|H]; [exact H|].
  rewrite H. unfold fromEnvironment. rewrite Henv. reflexivity.
Qed.

(** X16.  An unexported field is never written: when no file has
    anything for it, wherever it is in the struct handed to [Process], it
    holds after [Process] what it held before, whatever its tags and the
    environment and whether or not [Process] fails. *)
Theorem X16_unexported_untouched
        prefix configPaths pi si fields fs p path leaf t f :
  jsonSilent configPaths fields p ->
  fieldAt fields fs p = Some (path, leaf, t, f) ->
  Exported leaf = false ->
  exists fs',
    spec' (Process prefix configPaths (structSpec pi si fields fs))
    = structSpec pi si fields fs'
    /\ fieldAt fields fs' p = Some (path, leaf, t, f).
Proof.
  intros Hsil Hat Hexp.
  assert (skipField leaf = true) as Hskip.
  { unfold skipField, CanSet, Field. cbn [flagRO flagAddr]. rewrite Hexp. reflexivity. }
  exact (Process_skippedAt prefix configPaths pi si fields fs p path leaf t f
           Hsil Hat Hskip).
Qed.


(** X18.  In a struct without pointer and struct fields the environment
    pass that succeeds looks up one key for each field it does not
    skip, in the order of the declaration. *)
Theorem X18_flat_lookups prefix fields fs :
  Forall (fun ft => isPtr ft.2 = false /\ isStruct ft.2 = false) fields ->
  length fs = length fields ->
  (processEnvironmentValues prefix fields (VStruct fs)).2 = None ->
  (processEnvironmentValues prefix fields (VStruct fs)).1.2
  = map (fun ft => envKey prefix ft.1)
        (List.filter (fun ft => negb (skipField ft.1)) fields).
Proof.
  rewrite processEnvironmentValues_walk. cbn [fst snd].
  intros Hflat. revert fs.
  induction Hflat as [|[ftype t] fields [Hptr Hstruct] _ IH]; intros [|f fs] Hlen;
    try discriminate; [reflexivity|].
  injection Hlen as Hlen. specialize (IH fs Hlen).
  cbn [walkFields List.filter fst snd] in *.
  destruct (skipField ftype); cbn [negb].
  - destruct (walkFields _ fields fs) as [[r keys] err]. exact IH.
  - rewrite processEnvironmentField_leaf by assumption.
    pose proof (envLeaf_fromEnvironment (envKey prefix ftype) ftype t f) as [_ Hkey].
    destruct (envLeaf (envKey prefix ftype) ftype t f) as [[f' keys] [e|]];
      cbn [fst snd] in *; [discriminate|]. subst keys.
    destruct (walkFields _ fields fs) as [[r keys] err]. cbn [fst snd] in *.
    intros Herr. rewrite (IH Herr). reflexivity.
Qed.

Lemma processField_pointer value fl pi elem f :
  noCapability fl (TPtr pi elem) = true ->
  exists r : contents * option error,
    processField value fl (TPtr pi elem) f = (VPtr (Some r.1), r.2).
Proof.
  intros Hcap. apply noCapability_nil in Hcap as (Hd & Hs & Ht).
  cbn [processField]. rewrite Hd, Hs, Ht. eexists. reflexivity.
Qed.

(** X19.  A nil pointer to something that is not a struct stays nil in
    a pass that has no string for it, and is allocated by a pass that
    has one and finds no capability on the pointer. *)
Theorem X19_nil_pointer prefix fields fs i ftype pi elem :
  fields !! i = Some (ftype, TPtr pi elem) ->
  fs !! i = Some (VPtr None) ->
  isStruct elem = false ->
  let d := processDefaultValues fields (VStruct fs) in
  let e := processEnvironmentValues prefix fields (VStruct fs) in
  (Tag_Lookup (Tag ftype) "default" = None -> structField d.1 i = Some (VPtr None))
  /\ (lookupEnv (envKey prefix ftype) = None ->
      structField e.1.1 i = Some (VPtr None))
  /\ (skipField ftype = false ->
      noCapability (Field ftype) (TPtr pi elem) = true ->
      (is_Some (Tag_Lookup (Tag ftype) "default") -> d.2 = None ->
       exists v, structField d.1 i = Some (VPtr (Some v)))
      /\ (is_Some (lookupEnv (envKey prefix ftype)) -> e.2 = None ->
          exists v, structField e.1.1 i = Some (VPtr (Some v)))).
Proof.
  intros Hi Hf Helem d e. subst d e.
  rewrite processDefaultValues_walk, processEnvironmentValues_walk.
  cbn [fst snd structField].
  assert (processDefaultField ftype (TPtr pi elem) (VPtr None)
          = defaultLeaf ftype (TPtr pi elem) (VPtr None)) as Hdefault.
  { cbn [processDefaultField]. rewrite Helem. reflexivity. }
  assert (processEnvironmentField prefix ftype (TPtr pi elem) (VPtr None)
          = envLeaf (envKey prefix ftype) ftype (TPtr pi elem) (VPtr None)) as Henv.
  { cbn [processEnvironmentField]. rewrite Helem. reflexivity. }
  split; [|split].
  - intros Htag.
    destruct (walkFields_cases processDefaultField fields fs i _ _ _ Hi Hf)
      as [->|[_ ->]]; [reflexivity|].
    rewrite Hdefault. unfold defaultLeaf. rewrite Htag. reflexivity.
  - intros Hunset.
    destruct (walkFields_cases (processEnvironmentField prefix) fields fs i _ _ _ Hi Hf)
      as [->|[_ ->]]; [reflexivity|].
    rewrite Henv. unfold envLeaf. rewrite Hunset. reflexivity.
  - intros Hskip Hcap. split.
    + intros [value Htag] Herr.
      destruct (walkFields_visited _ fields fs i _ _ _ Hi Hf Hskip Herr) as [-> _].
      rewrite Hdefault. unfold defaultLeaf. rewrite Htag.
      destruct (processField_pointer value (Field ftype) pi elem (VPtr None) Hcap)
        as ([v [err|]] & ->); cbn [fst snd]; eauto.
    + intros [value Hset] Herr.
      destruct (walkFields_visited _ fields fs i _ _ _ Hi Hf Hskip Herr) as [-> _].
      rewrite Henv. unfold envLeaf. rewrite Hset.
      destruct (processField_pointer value (Field ftype) pi elem (VPtr None) Hcap)
        as ([v [err|]] & ->); cbn [fst snd]; eauto.
Qed.
End Kkonfig.

(** ** Instances

    The theorems at explicit structs, files and environments. *)

Example ParseInt_examples :
  strconv.ParseInt "5" 64 = (5, None) /\
  strconv.ParseInt "-0x1F" 64 = (-31, None) /\
  strconv.ParseInt "1_000" 64 = (1000, None) /\
  strconv.ParseInt "128" 8 = (127, Some (NumError "ParseInt" "128" ErrRange)) /\
  strconv.ParseInt "-128" 8 = (-128, None) /\
  strconv.ParseInt "x" 64 = (0, Some (NumError "ParseInt" "x" ErrSyntax)) /\
  strconv.ParseInt "" 64 = (0, Some (NumError "ParseInt" "" ErrSyntax)) /\
  strconv.ParseUint "18446744073709551616" 64
  = (18446744073709551615, Some (NumError "ParseUint" "18446744073709551616" ErrRange)).
Proof. repeat split; vm_compute; reflexivity. Qed.

Example Split_examples :
  strings.Split "a,b,c" "," = ["a"; "b"; "c"] /\
  strings.Split "" "," = [""] /\
  strings.Split "a," "," = ["a"; ""] /\
  strings.ToUpper "app_Server_port9" = "APP_SERVER_PORT9".
Proof. repeat split. Qed.

(** A duration parser that knows "5s", and a field of type
    [time.Duration] with that default: five seconds, not 5. *)
Example Duration_example :
  let parse s := if String.eqb s "5s" then (5000000000, None)
                 else rejectDuration s in
  let tDuration :=
    TInt {| PkgPath := "time"; TypeName := "Duration";
            TypeString := "time.Duration";
            onValue := noMethods; onAddr := noMethods |} Int64 in
  processDefaultValues rejectFloat parse
    [(exportedField "Timeout" [("default", "5s")], tDuration)] (VStruct [VInt 0])
  = (VStruct [VInt 5000000000], None).
Proof. reflexivity. Qed.

(** The [envconfig] tag replaces the name of the field in the key. *)
Example envconfig_example :
  envKey "app" (exportedField "Host" [("envconfig", "HOSTNAME")]) = "APP_HOSTNAME"
  /\ envKey "" (exportedField "Host" []) = "HOST".
Proof. split; reflexivity. Qed.

(** A conversion that fails in the environment pass: the error names the
    key, the field, the type and the string, and the walk stops. *)
Example ParseError_example :
  processEnvironmentValues rejectFloat rejectDuration
    (environ [("APP_PORTS", "1,2,x"); ("APP_NAME", "kkonfig")]) "app"
    [(exportedField "Ports" [], tSliceOfInt); (exportedField "Name" [], tString)]
    (VStruct [VSlice []; VString ""])
  = (VStruct [VSlice []; VString ""], ["APP_PORTS"],
     Some (ParseError "APP_PORTS" "Ports" "[]int" "1,2,x"
                      (NumError "ParseInt" "x" ErrSyntax))).
Proof. reflexivity. Qed.

Lemma mergeNothing_silent ReadFile configPaths fields p :
  jsonSilent ReadFile mergeNothing configPaths fields p.
Proof. intros path jsonBytes t fs _ _. exists fs. split; reflexivity. Qed.

Lemma mergeField_silent ReadFile configPaths fields i j v p :
  i <> j -> jsonSilent ReadFile (mergeField j v) configPaths fields (i :: p).
Proof.
  intros Hne path jsonBytes t fs _ _. exists (<[j:=v]> fs). split; [reflexivity|].
  destruct p; [rewrite !fieldAt_top|rewrite !fieldAt_nested];
    rewrite list_lookup_insert_ne by congruence; reflexivity.
Qed.





(** [Port], [Server.Port] and [Port] of an embedded [Server], under the
    prefix "app", in an environment with APP_PORT=8080 and
    APP_SERVER_PORT=9090. *)
Lemma C3_witness :
  let env := environ [("APP_PORT", "8080"); ("APP_SERVER_PORT", "9090")] in
  let walk := processEnvironmentValues rejectFloat rejectDuration env "app" in
  (In "APP_PORT" (walk [(port, tInt)] (VStruct [VInt 0])).1.2
   /\ exists fs',
       (walk [(port, tInt)] (VStruct [VInt 0])).1.1 = VStruct fs'
       /\ fieldAt [(port, tInt)] fs' [0%nat] = Some ([], port, tInt, VInt 8080))
  /\ (In "APP_SERVER_PORT" (walk serverPortFields (VStruct [VStruct [VInt 0]])).1.2
      /\ exists fs',
          (walk serverPortFields (VStruct [VStruct [VInt 0]])).1.1 = VStruct fs'
          /\ fieldAt serverPortFields fs' [0%nat; 0%nat]
             = Some ([exportedField "Server" []], port, tInt, VInt 9090))
  /\ (In "APP_PORT" (walk embeddedServerFields (VStruct [VStruct [VInt 0]])).1.2
      /\ exists fs',
          (walk embeddedServerFields (VStruct [VStruct [VInt 0]])).1.1 = VStruct fs'
          /\ fieldAt embeddedServerFields fs' [0%nat; 0%nat]
             = Some ([embeddedField "Server" []], port, tInt, VInt 8080)).
Proof.
  split; [|split].
  - exact (C3_environment_key rejectFloat rejectDuration
             (environ [("APP_PORT", "8080"); ("APP_SERVER_PORT", "9090")]) "app"
             [(port, tInt)] [VInt 0] [0%nat] [] port tInt (VInt 0)
             eq_refl eq_refl eq_refl eq_refl eq_refl).
  - exact (C3_environment_key rejectFloat rejectDuration
             (environ [("APP_PORT", "8080"); ("APP_SERVER_PORT", "9090")]) "app"
             serverPortFields [VStruct [VInt 0]] [0%nat; 0%nat]
             [exportedField "Server" []] port tInt (VInt 0)
             eq_refl eq_refl eq_refl eq_refl eq_refl).
  - exact (C3_environment_key rejectFloat rejectDuration
             (environ [("APP_PORT", "8080"); ("APP_SERVER_PORT", "9090")]) "app"
             embeddedServerFields [VStruct [VInt 0]] [0%nat; 0%nat]
             [embeddedField "Server" []] port tInt (VInt 0)
             eq_refl eq_refl eq_refl eq_refl eq_refl).
Defined.

(** A nil pointer to a struct is refused. *)
Lemma C5_witness :
  Process rejectFloat rejectDuration (sameFile []) (mergeField 0 (VInt 6))
          (environ [("APP_PORT", "7")]) "app" ["config.json"]
          (IVal (tPtrTo (tStructOf portFields)) (VPtr None))
  = {| spec' := IVal (tPtrTo (tStructOf portFields)) (VPtr None);
       reads := []; lookups := []; err := Some ErrInvalidSpecification |}.
Proof.
  exact (C5_invalid_specification rejectFloat rejectDuration (sameFile [])
           (mergeField 0 (VInt 6)) (environ [("APP_PORT", "7")]) "app"
           ["config.json"] (IVal (tPtrTo (tStructOf portFields)) (VPtr None)) eq_refl).
Defined.

(** [Decode], found on the address, goes before [Set], found on the
    value. *)
Lemma C7_witness :
  processField rejectFloat rejectDuration "7" Index tLevel (VInt 0) = (VInt 1, None).
Proof.
  exact (C7_capability_priority rejectFloat rejectDuration "7" Index tLevel (VInt 0)
           eq_refl).
Defined.

(** The default pass walks [Server] and gives [Port] its default; the
    environment pass looks up SERVER and hands it to [Decode], and does
    not look up SERVER_PORT. *)
Lemma C8_witness :
  structField (processDefaultValues rejectFloat rejectDuration serverFields
                                    (VStruct [VStruct [VInt 0]])).1 0
  = Some (VStruct [VInt 5])
  /\ structField (processEnvironmentValues rejectFloat rejectDuration
                    (environ [("SERVER", "localhost"); ("SERVER_PORT", "8080")]) ""
                    serverFields (VStruct [VStruct [VInt 0]])).1.1 0
     = Some (VStruct [VInt 80]).
Proof.
  destruct (C8_struct_recursion rejectFloat rejectDuration
              (environ [("SERVER", "localhost"); ("SERVER_PORT", "8080")]) ""
              serverFields [VStruct [VInt 0]] 0
              (exportedField "Server" [("default", "443")]) tServer (VStruct [VInt 0])
              {| PkgPath := "main"; TypeName := "Server"; TypeString := "main.Server";
                 onValue := noMethods;
                 onAddr := {| Decode := Some (store (VStruct [VInt 80]));
                              Set_ := None; UnmarshalText := None |} |}
              portFields [VInt 0] eq_refl eq_refl eq_refl eq_refl) as [Hd He].
  split; [exact (Hd eq_refl)|exact (He eq_refl)].
Defined.

(** [DB] is nil, [Password] in it is ignored, has a default and
    DB_PASSWORD is in the environment, and the file has something for
    [Port] only: after [Process] the struct behind [DB] is there and its
    [Password] is the empty string. *)
Lemma C9_witness :
  exists fs',
    spec' (Process rejectFloat rejectDuration (sameFile [])
                   (mergeField 1 (VInt 6))
                   (environ [("DB_PASSWORD", "secret"); ("DB_HOST", "db1")]) ""
                   ["config.json"]
                   (structSpec (plainInfo "ptr") (plainInfo "struct")
                               dbFields [VPtr None; VInt 0]))
    = structSpec (plainInfo "ptr") (plainInfo "struct") dbFields fs'
    /\ fieldAt dbFields fs' [0%nat; 0%nat]
       = Some ([exportedField "DB" []], password, tString, VString "").
Proof.
  destruct (C9_ignored_untouched rejectFloat rejectDuration (sameFile [])
              (mergeField 1 (VInt 6))
              (environ [("DB_PASSWORD", "secret"); ("DB_HOST", "db1")]) ""
              ["config.json"]
              (plainInfo "ptr") (plainInfo "struct") dbFields [VPtr None; VInt 0]
              [0%nat; 0%nat] [exportedField "DB" []] password tString (VString "")
              [(password, tString)] [VString ""] 0%nat
              (mergeField_silent _ _ _ 0%nat 1%nat (VInt 6) _ ltac:(discriminate))
              eq_refl eq_refl eq_refl) as (_ & _ & H).
  exact H.
Defined.

(** HOSTS is set and empty: one empty host. *)
Lemma C10_witness :
  exists fs',
    spec' (Process rejectFloat rejectDuration noFile mergeNothing
                   (environ [("HOSTS", "")]) "" []
                   (structSpec (plainInfo "ptr") (plainInfo "struct")
                               [(exportedField "Hosts" [], tSliceOfString)]
                               [VSlice []]))
    = structSpec (plainInfo "ptr") (plainInfo "struct")
                 [(exportedField "Hosts" [], tSliceOfString)] fs'
    /\ fieldAt [(exportedField "Hosts" [], tSliceOfString)] fs' [0%nat]
       = Some ([], exportedField "Hosts" [], tSliceOfString, VSlice [VString ""]).
Proof.
  exact (proj2
           (C10_empty_value_one_element rejectFloat rejectDuration noFile mergeNothing
              (environ [("HOSTS", "")]) "" []
              (plainInfo "ptr") (plainInfo "struct")
              [(exportedField "Hosts" [], tSliceOfString)] [VSlice []] [0%nat] []
              (exportedField "Hosts" []) (plainInfo "[]string") (plainInfo "string")
              (VSlice []) (jsonSilent_keeps _ _ _ _ _ (mergeNothing_silent _ _ _ _))
              eq_refl eq_refl eq_refl eq_refl eq_refl)
           eq_refl).
Defined.


(** ** Instances of the further properties *)

(** No path can be read: the decoder is not run and the struct is what
    it was. *)
Lemma X2_witness :
  processJson noFile (mergeField 0 (VInt 6)) ["a.json"; "b.json"]
              (tStructOf portFields) (VStruct [VInt 7])
  = (VStruct [VInt 7], ["a.json"; "b.json"], None).
Proof.
  apply (X2_processJson_unreadable noFile (mergeField 0 (VInt 6)) ["a.json"; "b.json"]
           (tStructOf portFields) (VStruct [VInt 7])).
  repeat constructor; discriminate.
Defined.

(** An empty environment: [Port] keeps its 7, [DB] is allocated. *)
Lemma X3_witness :
  exists fs',
    (processEnvironmentValues rejectFloat rejectDuration (environ []) "app"
                              dbFields (VStruct [VPtr None; VInt 7])).1.1
    = VStruct fs'
    /\ fieldAt dbFields fs' [1%nat]
       = Some ([], exportedField "Port" [("default", "5")], tInt, VInt 7).
Proof.
  destruct (X3_empty_environment rejectFloat rejectDuration (environ []) "app"
              dbFields [VPtr None; VInt 7] (fun _ => eq_refl)) as (fs' & Hwalk & Hat).
  exists fs'. split.
  - exact (f_equal (fun r => r.1.1) Hwalk).
  - exact (Hat [1%nat] [] _ tInt (VInt 7) eq_refl eq_refl eq_refl).
Defined.

(** PORT=x cannot be parsed: the error names PORT, the last key looked
    up. *)
Lemma X4_witness :
  let walk := processEnvironmentValues rejectFloat rejectDuration
                (environ [("HOST", "h"); ("PORT", "x")]) ""
                [(exportedField "Host" [], tString); (port, tInt);
                 (exportedField "Debug" [], tString)]
                (VStruct [VString ""; VInt 0; VString ""]) in
  walk.2 = Some (ParseError "PORT" "Port" "int" "x" (NumError "ParseInt" "x" ErrSyntax))
  /\ last walk.1.2 = Some "PORT".
Proof.
  split; [reflexivity|].
  exact (proj2 (proj2
           (X4_environment_error rejectFloat rejectDuration
              (environ [("HOST", "h"); ("PORT", "x")]) ""
              [(exportedField "Host" [], tString); (port, tInt);
               (exportedField "Debug" [], tString)]
              (VStruct [VString ""; VInt 0; VString ""])
              (ParseError "PORT" "Port" "int" "x" (NumError "ParseInt" "x" ErrSyntax))
              eq_refl))).
Defined.

(** A default that cannot be parsed. *)
Lemma X5_witness :
  let fields := [(exportedField "Port" [("default", "x")], tInt)] in
  (processDefaultValues rejectFloat rejectDuration fields (VStruct [VInt 0])).2
  = Some (ParseError "" "Port" "int" "x" (NumError "ParseInt" "x" ErrSyntax))
  /\ tagged "default" (tStructOf fields) = true.
Proof.
  split; [reflexivity|].
  exact (proj2 (proj2
           (X5_default_error rejectFloat rejectDuration (plainInfo "struct")
              [(exportedField "Port" [("default", "x")], tInt)] (VStruct [VInt 0])
              (ParseError "" "Port" "int" "x" (NumError "ParseInt" "x" ErrSyntax))
              eq_refl))).
Defined.

(** [MustProcess] panics on PORT=x, after the file has been read. *)
Lemma X6_witness :
  let e := ParseError "PORT" "Port" "int" "x" (NumError "ParseInt" "x" ErrSyntax) in
  let o := Process rejectFloat rejectDuration noFile mergeNothing
                   (environ [("PORT", "x")]) "" ["config.json"]
                   (structSpec (plainInfo "ptr") (plainInfo "struct")
                               [(port, tInt)] [VInt 0]) in
  MustProcess rejectFloat rejectDuration noFile mergeNothing
              (environ [("PORT", "x")]) "" ["config.json"]
              (structSpec (plainInfo "ptr") (plainInfo "struct") [(port, tInt)] [VInt 0])
  = Panics e o
  /\ err o = Some e /\ reads o = ["config.json"] /\ last (lookups o) = Some "PORT".
Proof.
  intros e o. split; [reflexivity|].
  destruct (X6_MustProcess_panics rejectFloat rejectDuration noFile mergeNothing
              (environ [("PORT", "x")]) "" ["config.json"]
              (structSpec (plainInfo "ptr") (plainInfo "struct") [(port, tInt)] [VInt 0])
              e o eq_refl)
    as (_ & Herr & [(Hno & _)|(_ & _ & [(Hkey & _)|(_ & Hreads & Hlast)])]).
  - discriminate Hno.
  - discriminate Hkey.
  - split; [exact Herr|]. split; [exact Hreads|exact Hlast].
Defined.


(** Under the prefix "app" the key of [Server.Port] is in upper case and
    begins with APP_. *)
Lemma X8_witness :
  strings.ToUpper "APP_SERVER_PORT" = "APP_SERVER_PORT"
  /\ exists rest, "APP_SERVER_PORT" = (namespace "app" ++ rest)%string.
Proof.
  apply (X8_keys_in_namespace rejectFloat rejectDuration noFile mergeNothing
           (environ []) "app" []
           (structSpec (plainInfo "ptr") (plainInfo "struct")
                       serverPortFields [VStruct [VInt 0]])
           "APP_SERVER_PORT").
  simpl. left. reflexivity.
Defined.

(** The prefixes "app" and "App" do the same. *)
Lemma X9_witness :
  Process rejectFloat rejectDuration noFile mergeNothing
          (environ [("APP_PORT", "7")]) "app" []
          (structSpec (plainInfo "ptr") (plainInfo "struct") portFields [VInt 0])
  = Process rejectFloat rejectDuration noFile mergeNothing
            (environ [("APP_PORT", "7")]) "App" []
            (structSpec (plainInfo "ptr") (plainInfo "struct") portFields [VInt 0]).
Proof.
  exact (X9_prefix_case rejectFloat rejectDuration noFile mergeNothing
           (environ [("APP_PORT", "7")]) "app" "App" []
           (structSpec (plainInfo "ptr") (plainInfo "struct") portFields [VInt 0])
           eq_refl).
Defined.

(** A failed conversion into a nil [*int] leaves a pointer to 0. *)
Lemma X10_witness :
  (processField rejectFloat rejectDuration "x" Index (tPtrTo tInt) (VPtr None)).1
  = VPtr (Some (VInt 0)).
Proof.
  refine (proj1 (X10_unconverted rejectFloat rejectDuration "x" Index (tPtrTo tInt)
                   (VPtr None) eq_refl (or_introl _))).
  simpl. discriminate.
Defined.

(** Two commas, three elements. *)
Lemma X11_witness :
  exists sl,
    (processField rejectFloat rejectDuration "1,2,3" Index tSliceOfInt (VSlice [])).1
    = VSlice sl
    /\ length sl = 3%nat.
Proof.
  exact (X11_slice_length rejectFloat rejectDuration "1,2,3" Index
           (plainInfo "[]int") tInt (VSlice []) eq_refl eq_refl).
Defined.

Lemma X12_witness :
  exists pieces,
    processField rejectFloat rejectDuration "a,,b" Index tSliceOfString (VSlice [])
    = (VSlice (map VString pieces), None)
    /\ strings.Join pieces "," = "a,,b".
Proof.
  exact (X12_strings_round_trip rejectFloat rejectDuration "a,,b" Index
           (plainInfo "[]string") (plainInfo "string") (VSlice []) eq_refl eq_refl).
Defined.

(** -128 fits an [int8]. *)
Lemma X13_witness :
  exists n,
    (processField rejectFloat rejectDuration "-128" Index
                  (TInt (plainInfo "int8") Int8) (VInt 0)).1 = VInt n
    /\ - 2 ^ (intBits Int8 - 1) <= n < 2 ^ (intBits Int8 - 1).
Proof.
  exact (X13_int_in_range rejectFloat rejectDuration "-128" Index
           (plainInfo "int8") Int8 (VInt 0) eq_refl eq_refl eq_refl).
Defined.

(** 0xff fits a [uint8]. *)
Lemma X14_witness :
  exists n,
    (processField rejectFloat rejectDuration "0xff" Index
                  (TUint (plainInfo "uint8") Uint8) (VUint 0)).1 = VUint n
    /\ 0 <= n < 2 ^ uintBits Uint8.
Proof.
  exact (X14_uint_in_range rejectFloat rejectDuration "0xff" Index
           (plainInfo "uint8") Uint8 (VUint 0) eq_refl eq_refl).
Defined.

(** [Port] has no default and PORT is not set; the file and the
    environment are about [Host]. *)
Lemma X15_witness :
  let fields := [(port, tInt);
                 (exportedField "Host" [("default", "localhost")], tString)] in
  exists fs',
    spec' (Process rejectFloat rejectDuration (sameFile [])
                   (mergeField 1 (VString "files"))
                   (environ [("HOST", "example.org")]) "" ["config.json"]
                   (structSpec (plainInfo "ptr") (plainInfo "struct")
                               fields [VInt 7; VString ""]))
    = structSpec (plainInfo "ptr") (plainInfo "struct") fields fs'
    /\ fieldAt fields fs' [0%nat] = Some ([], port, tInt, VInt 7).
Proof.
  exact (X15_no_source_unchanged rejectFloat rejectDuration (sameFile [])
           (mergeField 1 (VString "files"))
           (environ [("HOST", "example.org")]) "" ["config.json"]
           (plainInfo "ptr") (plainInfo "struct")
           [(port, tInt); (exportedField "Host" [("default", "localhost")], tString)]
           [VInt 7; VString ""] [0%nat] [] port tInt (VInt 7)
           (mergeField_silent _ _ _ 0%nat 1%nat (VString "files") _ ltac:(discriminate))
           eq_refl eq_refl eq_refl eq_refl eq_refl).
Defined.

(** An unexported [secret] with a default and SECRET in the
    environment. *)
Lemma X16_witness :
  let secret := {| Name := "secret"; Exported := false; Anonymous := false;
                   Tag := [("default", "5")] |} in
  exists fs',
    spec' (Process rejectFloat rejectDuration noFile mergeNothing
                   (environ [("SECRET", "7")]) "" []
                   (structSpec (plainInfo "ptr") (plainInfo "struct")
                               [(secret, tInt)] [VInt 1]))
    = structSpec (plainInfo "ptr") (plainInfo "struct") [(secret, tInt)] fs'
    /\ fieldAt [(secret, tInt)] fs' [0%nat] = Some ([], secret, tInt, VInt 1).
Proof.
  exact (X16_unexported_untouched rejectFloat rejectDuration noFile mergeNothing
           (environ [("SECRET", "7")]) "" []
           (plainInfo "ptr") (plainInfo "struct")
           [({| Name := "secret"; Exported := false; Anonymous := false;
                Tag := [("default", "5")] |}, tInt)]
           [VInt 1] [0%nat] [] _ tInt (VInt 1)
           (mergeNothing_silent _ _ _ _) eq_refl eq_refl).
Defined.


(** [Password] is ignored: APP_PORT, then APP_HOST. *)
Lemma X18_witness :
  (processEnvironmentValues rejectFloat rejectDuration
     (environ [("APP_PORT", "1")]) "app"
     [(port, tInt); (password, tString); (exportedField "Host" [], tString)]
     (VStruct [VInt 0; VString ""; VString ""])).1.2
  = ["APP_PORT"; "APP_HOST"].
Proof.
  apply (X18_flat_lookups rejectFloat rejectDuration (environ [("APP_PORT", "1")]) "app"
           [(port, tInt); (password, tString); (exportedField "Host" [], tString)]
           [VInt 0; VString ""; VString ""]).
  - repeat constructor.
  - reflexivity.
  - reflexivity.
Defined.

(** A nil [*int]: [Limit] has a default and no variable, [Burst] a
    variable and no default. *)
Lemma X19_witness :
  let limit := exportedField "Limit" [("default", "10")] in
  let burst := exportedField "Burst" [] in
  let fields := [(limit, tPtrTo tInt); (burst, tPtrTo tInt)] in
  let fs := [VPtr None; VPtr None] in
  let d := processDefaultValues rejectFloat rejectDuration fields (VStruct fs) in
  let e := processEnvironmentValues rejectFloat rejectDuration
             (environ [("BURST", "20")]) "" fields (VStruct fs) in
  structField d.1 1 = Some (VPtr None)
  /\ structField e.1.1 0 = Some (VPtr None)
  /\ (exists v, structField d.1 0 = Some (VPtr (Some v)))
  /\ (exists v, structField e.1.1 1 = Some (VPtr (Some v))).
Proof.
  intros limit burst fields fs d e.
  destruct (X19_nil_pointer rejectFloat rejectDuration (environ [("BURST", "20")]) ""
              fields fs 0 limit (plainInfo "ptr") tInt eq_refl eq_refl eq_refl)
    as (_ & Hunset & Hset).
  destruct (X19_nil_pointer rejectFloat rejectDuration (environ [("BURST", "20")]) ""
              fields fs 1 burst (plainInfo "ptr") tInt eq_refl eq_refl eq_refl)
    as (Huntagged & _ & Hset').
  split; [exact (Huntagged eq_refl)|]. split; [exact (Hunset eq_refl)|]. split.
  - exact (proj1 (Hset eq_refl eq_refl) (ex_intro _ "10" eq_refl) eq_refl).
  - exact (proj2 (Hset' eq_refl eq_refl) (ex_intro _ "20" eq_refl) eq_refl).
Defined.
